(** * ts-nano-event: a shallow embedding of [createEmitter] and its three methods

    The source is one function, [createEmitter], that allocates a
    [Map<keyof Events, Set<Listener>>] and returns three closures over it:
    [on], [off] and [emit].  The embedding keeps the objects the closures
    share in an explicit store:

    - every [Set] object lives at a location of [sets], and holds the entry
      list ECMAScript specifies for it: [add] appends unless the value is
      present, [delete] overwrites the entry with the empty marker, and
      [forEach] walks the list by index, re-reading it after every callback;
    - every [Map] object (one per [createEmitter] call) lives at a location
      of [maps] and sends an event name to the location of its [Set];
    - the closure returned by [on] captures the [Set] object [s] and the
      listener, not the event name.

    Listeners are caller code.  A listener is a reference (compared by
    identity) whose body is a list of actions on emitters: it may create
    emitters, subscribe, unsubscribe, publish again, or throw. *)

From stdpp Require Import base list strings gmap.
From Stdlib Require Import Lia.

(** ** The [Set] object *)

Abbreviation event := string.
Abbreviation listener := nat.
Abbreviation loc := nat.

(** [[SetData]]: the entries in insertion order, [None] being the empty
    marker left behind by [delete]. *)
Abbreviation SetData := (list (option listener)).

(** [Set.prototype.add]: append unless an equal entry is present. *)
Definition set_add (f : listener) (d : SetData) : SetData :=
  if decide (Some f ∈ d) then d else d ++ [Some f].

(** [Set.prototype.delete]: replace the matching entry by the empty marker. *)
Definition set_delete (f : listener) (d : SetData) : SetData :=
  (λ x, if decide (x = Some f) then None else x) <$> d.

(** The members of the set, in insertion order. *)
Definition live (d : SetData) : list listener := omap id d.

(** The steps [forEach] takes over these entries when every callback
    returns at once: one per entry, one more per call, one to leave. *)
Definition each_cost (d : SetData) : nat := 1 + length d + length (live d).

(** The closure [() => { s.delete(listener) }] returned by [on]: it holds
    the [Set] object and the listener. *)
Record unsub := Unsub { u_set : loc; u_fn : listener }.

Section Emitter.

Variable payload : Type.

(** One recorded invocation [fn(data)]. *)
Definition call : Type := listener * payload.

Record store := Store {
  sets : list SetData;
  maps : list (gmap event loc);
  log : list call
}.

Definition init : store := Store [] [] [].

Definition with_sets (g : list SetData → list SetData) (h : store) : store :=
  Store (g (sets h)) (maps h) (log h).

Definition record_call (f : listener) (d : payload) (h : store) : store :=
  Store (sets h) (maps h) (log h ++ [(f, d)]).

Definition log_calls (cs : list call) (h : store) : store :=
  Store (sets h) (maps h) (log h ++ cs).

(** [m.get(event)] for the [Map] of emitter [em].  A handle that no
    [createEmitter] returned has no [Map]: the lookup finds nothing. *)
Definition lookup_set (h : store) (em : loc) (e : event) : option loc :=
  (maps h !!! em) !! e.

(** The listeners currently registered under [e], in subscription order. *)
Definition registered (h : store) (em : loc) (e : event) : list listener :=
  match lookup_set h em e with
  | Some s => live (sets h !!! s)
  | None => []
  end.

(** [createEmitter()]: [const m = new Map()]; the emitter is its [Map]. *)
Definition createEmitter (h : store) : loc * store :=
  (length (maps h), Store (sets h) (maps h ++ [∅]) (log h)).

(** [on(event, listener)]:
    [let s = m.get(event); if (!s) m.set(event, (s = new Set()));
     s.add(listener); return () => { s.delete(listener) }].
    A [Set] object is always truthy, so [!s] holds exactly when the name has
    no entry.  Callers only hold handles that [createEmitter] returned; for
    any other handle there is no [Map] to write to, and the statements below
    assume [is_emitter] wherever that matters. *)
Definition on (em : loc) (e : event) (f : listener) (h : store) : unsub * store :=
  match lookup_set h em e with
  | Some s => (Unsub s f, with_sets (alter (set_add f) s) h)
  | None =>
      let s := length (sets h) in
      (Unsub s f,
       Store (sets h ++ [set_add f []])
             (<[em := <[e := s]> (maps h !!! em)]> (maps h))
             (log h))
  end.

(** [off(event, listener)]: [m.get(event)?.delete(listener)]. *)
Definition off (em : loc) (e : event) (f : listener) (h : store) : store :=
  match lookup_set h em e with
  | Some s => with_sets (alter (set_delete f) s) h
  | None => h
  end.

(** Invoking the closure returned by [on]: [s.delete(listener)]. *)
Definition call_unsub (u : unsub) (h : store) : store :=
  with_sets (alter (set_delete (u_fn u)) (u_set u)) h.

(** ** Caller code and the publish loop *)

Inductive action :=
| ACreate
| AOn (em : loc) (e : event) (f : listener)
| AOff (em : loc) (e : event) (f : listener)
| AUnsub (u : unsub)
| AEmit (em : loc) (e : event) (d : payload)
| AThrow.

(** What a listener does when invoked with a payload; the invocations made
    so far stand for whatever state of its own the listener keeps. *)
Variable body : listener → payload → list call → list action.

(** The control stack: a block of caller code, or a [forEach] that has
    reached index [i] of the [Set] at [s]. *)
Inductive frame :=
| FActs (acts : list action)
| FEach (s : loc) (i : nat) (d : payload).

(** The loop [m.get(event)?.forEach(...)] starts, when the name has a
    [Set]; otherwise there is nothing to run. *)
Definition emit_frames (h : store) (em : loc) (e : event) (d : payload) : list frame :=
  match lookup_set h em e with
  | Some s => [FEach s 0 d]
  | None => []
  end.

(** One step.  [inr] is an exception leaving the whole stack: neither the
    source nor the caller code modelled here has a handler. *)
Definition step (k : list frame) (h : store) : (list frame * store) + store :=
  match k with
  | [] => inl ([], h)
  | FActs [] :: k => inl (k, h)
  | FActs (a :: acts) :: k =>
      match a with
      | ACreate => inl (FActs acts :: k, (createEmitter h).2)
      | AOn em e f => inl (FActs acts :: k, (on em e f h).2)
      | AOff em e f => inl (FActs acts :: k, off em e f h)
      | AUnsub u => inl (FActs acts :: k, call_unsub u h)
      | AEmit em e d => inl (emit_frames h em e d ++ FActs acts :: k, h)
      | AThrow => inr h
      end
  | FEach s i d :: k =>
      match (sets h !!! s) !! i with
      | None => inl (k, h)
      | Some None => inl (FEach s (S i) d :: k, h)
      | Some (Some f) =>
          inl (FActs (body f d (log h)) :: FEach s (S i) d :: k,
               record_call f d h)
      end
  end.

Inductive outcome :=
| Returned (h : store)
| Threw (h : store)
| OutOfFuel.

Fixpoint run (n : nat) (k : list frame) (h : store) : outcome :=
  match k, n with
  | [], _ => Returned h
  | _, 0 => OutOfFuel
  | _, S n =>
      match step k h with
      | inl (k', h') => run n k' h'
      | inr h' => Threw h'
      end
  end.

(** [emit(event, data)]: [m.get(event)?.forEach((fn) => { fn(data) })]. *)
Definition emit (n : nat) (em : loc) (e : event) (d : payload) (h : store) : outcome :=
  run n (emit_frames h em e d) h.

(** Fuel that suffices for one [emit] whose listeners return at once. *)
Definition emit_cost (h : store) (em : loc) (e : event) : nat :=
  match lookup_set h em e with
  | Some s => each_cost (sets h !!! s)
  | None => 0
  end.

(** The store an execution ends in, when it ends. *)
Definition final (o : outcome) : option store :=
  match o with
  | Returned h | Threw h => Some h
  | OutOfFuel => None
  end.

(** The calls an execution has recorded by the time it ends. *)
Definition final_log (o : outcome) : list call :=
  match final o with
  | Some h => log h
  | None => []
  end.

(** The invocations of one listener among recorded calls. *)
Definition calls_of (f : listener) (cs : list call) : list call :=
  filter (λ c, c.1 = f) cs.

(** ** Predicates used in the statements *)

(** [em] was returned by an earlier [createEmitter]. *)
Definition is_emitter (h : store) (em : loc) : Prop := em < length (maps h).

(** The shape every store built through the API has: a [Map] entry points
    to an allocated [Set], no [Set] is shared by two entries, and no [Set]
    holds a listener twice. *)
Record wf (h : store) : Prop := {
  wf_alloc : ∀ em e s, lookup_set h em e = Some s → s < length (sets h);
  wf_inj : ∀ em1 e1 em2 e2 s,
    lookup_set h em1 e1 = Some s → lookup_set h em2 e2 = Some s →
    em1 = em2 ∧ e1 = e2;
  wf_nodup : ∀ s, NoDup (live (sets h !!! s))
}.

(** A listener that returns normally without touching any emitter. *)
Definition plain (f : listener) (d : payload) : Prop :=
  ∀ tr, body f d tr = [].

(** A listener whose invocation faults. *)
Definition throws (f : listener) (d : payload) : Prop :=
  ∀ tr, ∃ rest, body f d tr = AThrow :: rest.

(** [h'] is a later store: the caller ran any number of programs (API calls
    in any order, each program either returning or dying of an uncaught
    exception) in between. *)
Inductive evolves : store → store → Prop :=
| evolves_refl h : evolves h h
| evolves_run h h1 h2 n prog :
    evolves h h1 → final (run n [FActs prog] h1) = Some h2 → evolves h h2.

(** [Map] entries are never deleted or overwritten. *)
Definition stable (h h' : store) : Prop :=
  length (maps h) ≤ length (maps h') ∧
  ∀ em e s, lookup_set h em e = Some s → lookup_set h' em e = Some s.

(** [P] holds of the store after one step, however the step ends. *)
Definition step_post (P : store → Prop) (k : list frame) (h : store) : Prop :=
  match step k h with
  | inl (_, h') => P h'
  | inr h' => P h'
  end.

(** Publishing a list of payloads one after the other, as caller code. *)
Definition emits (em : loc) (e : event) (ds : list payload) : list action :=
  AEmit em e <$> ds.

End Emitter.

Arguments Store {payload} _ _ _.
Arguments sets {payload} _.
Arguments maps {payload} _.
Arguments log {payload} _.
Arguments init {payload}.
Arguments with_sets {payload} _ _.
Arguments record_call {payload} _ _ _.
Arguments log_calls {payload} _ _.
Arguments lookup_set {payload} _ _ _.
Arguments registered {payload} _ _ _.
Arguments createEmitter {payload} _.
Arguments on {payload} _ _ _ _.
Arguments off {payload} _ _ _ _.
Arguments call_unsub {payload} _ _.
Arguments ACreate {payload}.
Arguments AOn {payload} _ _ _.
Arguments AOff {payload} _ _ _.
Arguments AUnsub {payload} _.
Arguments AEmit {payload} _ _ _.
Arguments AThrow {payload}.
Arguments FActs {payload} _.
Arguments FEach {payload} _ _ _.
Arguments Returned {payload} _.
Arguments Threw {payload} _.
Arguments OutOfFuel {payload}.
Arguments emit_frames {payload} _ _ _ _.
Arguments emit_cost {payload} _ _ _.
Arguments step {payload} _ _ _.
Arguments run {payload} _ _ _ _.
Arguments emit {payload} _ _ _ _ _ _.
Arguments final {payload} _.
Arguments final_log {payload} _.
Arguments calls_of {payload} _ _.
Arguments is_emitter {payload} _ _.
Arguments wf {payload} _.
Arguments plain {payload} _ _ _.
Arguments throws {payload} _ _ _.
Arguments evolves {payload} _ _ _.
Arguments stable {payload} _ _.
Arguments step_post {payload} _ _ _ _.
Arguments emits {payload} _ _ _.

(** ** Sample caller code and stores

    Payloads are strings here, as in the [message] event of the test
    suite. *)

(** Every listener returns at once. *)
Definition quiet : listener → string → list (call string) → list (action string) :=
  λ _ _ _, [].

(** Listener 2 throws; every other listener returns at once. *)
Definition second_faults : listener → string → list (call string) → list (action string) :=
  λ f _ _, if decide (f = 2) then [AThrow] else [].

(** Listener 1 unregisters listener 3 while ["message"] is being published. *)
Definition first_removes_third : listener → string → list (call string) → list (action string) :=
  λ f _ _, if decide (f = 1) then [AOff 0 "message" 3] else [].

(** Listener 1 registers listener 9 while ["message"] is being published. *)
Definition first_adds_ninth : listener → string → list (call string) → list (action string) :=
  λ f _ _, if decide (f = 1) then [AOn 0 "message" 9] else [].

(** One emitter (handle 0), nothing registered. *)
Definition fresh : store string := (createEmitter init).2.

(** Listener 1 under ["message"]. *)
Definition one_listener : store string := (on 0 "message" 1 fresh).2.

(** Listeners 1, 2, 3 under ["message"], registered in that order. *)
Definition three_listeners : store string :=
  (on 0 "message" 3 (on 0 "message" 2 one_listener).2).2.

(** A second emitter (handle 1) with listener 2 under ["message"]. *)
Definition two_emitters : store string :=
  (on 1 "message" 2 (createEmitter one_listener).2).2.

(** Listener 7 registered on [fresh], then some more caller code: the
    closure is invoked, 7 is registered again, 8 is registered. *)
Definition busy_program : list (action string) :=
  [AUnsub (on 0 "message" 7 fresh).1; AOn 0 "message" 7; AOn 0 "message" 8].

Definition busy : store string :=
  default init (final (run quiet 5 [FActs busy_program] (on 0 "message" 7 fresh).2)).

(** Listener 1 unsubscribes and subscribes itself again while ["message"]
    is being published. *)
Definition first_resubscribes : listener → string → list (call string) → list (action string) :=
  λ f _ _, if decide (f = 1) then [AOff 0 "message" 1; AOn 0 "message" 1] else [].

(** Listener 1 publishes ["click"]. *)
Definition first_publishes_click : listener → string → list (call string) → list (action string) :=
  λ f _ _, if decide (f = 1) then [AEmit 0 "click" "inner"] else [].

(** Listener 1 publishes ["click"], and listener 5 throws. *)
Definition click_faults : listener → string → list (call string) → list (action string) :=
  λ f _ _,
    if decide (f = 1) then [AEmit 0 "click" "inner"]
    else if decide (f = 5) then [AThrow] else [].

(** Listeners 1, 2, 3 under ["message"] and listeners 5, 6 under ["click"]. *)
Definition two_names : store string :=
  (on 0 "click" 6 (on 0 "click" 5 three_listeners).2).2.

(** A store built from nothing by caller code. *)
Definition built : store string :=
  default init
    (final (run quiet 10 [FActs [ACreate; AOn 0 "message" 1; AOn 0 "message" 2;
                                AOff 0 "message" 1; AEmit 0 "message" "hello"]]
              init)).

(** Caller code that works on emitter 0 only, and the store it leaves when
    run on [two_emitters] with a listener that subscribes another. *)
Definition traffic : list (action string) :=
  [AOn 0 "click" 5; AEmit 0 "message" "hello"; AOff 0 "message" 1; ACreate;
   AOn 2 "message" 2; AThrow].

Definition after_traffic : store string :=
  default init (final (run first_adds_ninth 20 [FActs traffic] two_emitters)).

(** ** Listeners that re-enter the emitter

    The shapes of caller code the later statements speak about. *)

Section Behaviours.

Variable payload : Type.
Variable body : listener → payload → list (call payload) → list (action payload).

(** [f] calls [off(e, g)] on emitter [em] and returns. *)
Definition removes (em : loc) (e : event) (g f : listener) (d : payload) : Prop :=
  ∀ tr, body f d tr = [AOff em e g].

(** [f] calls [on(e, g)] on emitter [em] and returns. *)
Definition adds (em : loc) (e : event) (g f : listener) (d : payload) : Prop :=
  ∀ tr, body f d tr = [AOn em e g].

(** [f] calls [off(e, f)] and then [on(e, f)] on emitter [em]. *)
Definition resubscribes (em : loc) (e : event) (f : listener) (d : payload) : Prop :=
  ∀ tr, body f d tr = [AOff em e f; AOn em e f].

(** [f] calls [emit(e', d')] on emitter [em] and returns. *)
Definition publishes (em : loc) (e' : event) (d' : payload) (f : listener)
    (d : payload) : Prop :=
  ∀ tr, body f d tr = [AEmit em e' d'].

(** The [forEach] of a publish in which [f] resubscribes itself: [f] is
    always still ahead of the index, and every other member returns at
    once. *)
Definition ahead (em : loc) (e : event) (f : listener) (d : payload)
    (s : loc) (i : nat) (h : store payload) : Prop :=
  lookup_set h em e = Some s ∧ s < length (sets h) ∧
  f ∈ live (drop i (sets h !!! s)) ∧
  ∀ g, g ∈ live (sets h !!! s) → g ≠ f → plain body g d.

Inductive spinning (em : loc) (e : event) (f : listener) (d : payload) :
    list (frame payload) → store payload → Prop :=
| spin_each s i k h :
    ahead em e f d s i h → spinning em e f d (FEach s i d :: k) h
| spin_back s i k h :
    ahead em e f d s i h → spinning em e f d (FActs [] :: FEach s i d :: k) h
| spin_off s i k h :
    lookup_set h em e = Some s → s < length (sets h) →
    i ≤ length (sets h !!! s) →
    (∀ g, g ∈ live (sets h !!! s) → g ≠ f → plain body g d) →
    spinning em e f d (FActs [AOff em e f; AOn em e f] :: FEach s i d :: k) h
| spin_on s i k h :
    lookup_set h em e = Some s → s < length (sets h) →
    i ≤ length (sets h !!! s) → f ∉ live (sets h !!! s) →
    (∀ g, g ∈ live (sets h !!! s) → g ≠ f → plain body g d) →
    spinning em e f d (FActs [AOn em e f] :: FEach s i d :: k) h.

(** Caller code that has nothing to do with emitter [em2] as it stands in
    [h0]: it calls no method of [em2] and holds no closure over one of its
    [Set]s. *)
Definition foreign_to (h0 : store payload) (em2 : loc) (a : action payload) : Prop :=
  match a with
  | AOn em _ _ | AOff em _ _ | AEmit em _ _ => em ≠ em2
  | AUnsub u => ∀ e, lookup_set h0 em2 e ≠ Some (u_set u)
  | ACreate | AThrow => True
  end.

Definition frame_foreign (h0 : store payload) (em2 : loc) (fr : frame payload) : Prop :=
  match fr with
  | FActs acts => Forall (foreign_to h0 em2) acts
  | FEach s _ _ => ∀ e, lookup_set h0 em2 e ≠ Some s
  end.

(** Emitter [em2] is in [h] as it was in [h0]: the same names, the same
    [Set]s, the same entries. *)
Definition untouched (h0 : store payload) (em2 : loc) (h : store payload) : Prop :=
  wf h ∧
  (∀ e, lookup_set h em2 e = lookup_set h0 em2 e) ∧
  (∀ e s, lookup_set h0 em2 e = Some s → sets h !!! s = sets h0 !!! s).

(** [h'] is a store that some execution passes through after [h]: any
    number of steps, each from any control stack, so also a store in the
    middle of a publish, where a listener is about to run its next
    action. *)
Inductive during : store payload → store payload → Prop :=
| during_refl h : during h h
| during_step h h1 h2 k k' :
    during h h1 → step body k h1 = inl (k', h2) → during h h2
| during_throw h h1 h2 k :
    during h h1 → step body k h1 = inr h2 → during h h2.

End Behaviours.

Arguments removes {payload} _ _ _ _ _ _.
Arguments adds {payload} _ _ _ _ _ _.
Arguments resubscribes {payload} _ _ _ _ _.
Arguments publishes {payload} _ _ _ _ _ _.
Arguments ahead {payload} _ _ _ _ _ _ _ _.
Arguments spinning {payload} _ _ _ _ _ _ _.
Arguments foreign_to {payload} _ _ _.
Arguments frame_foreign {payload} _ _ _.
Arguments untouched {payload} _ _ _.
Arguments during {payload} _ _ _.

(** * Properties *)

(** ** The [Set] object *)

Lemma elem_of_live (f : listener) (d : SetData) : f ∈ live d ↔ Some f ∈ d.
Proof.
  unfold live. rewrite list_elem_of_omap. split.
  - intros (x & Hx & Heq). simpl in Heq. by subst.
  - intros H. by exists (Some f).
Qed.

Lemma live_app (d1 d2 : SetData) : live (d1 ++ d2) = live d1 ++ live d2.
Proof. apply omap_app. Qed.

Lemma set_add_member (f : listener) (d : SetData) :
  f ∈ live d → set_add f d = d.
Proof.
  intros H. unfold set_add. rewrite decide_True; [done|]. by apply elem_of_live.
Qed.

Lemma live_set_add_fresh (f : listener) (d : SetData) :
  f ∉ live d → live (set_add f d) = live d ++ [f].
Proof.
  intros H. unfold set_add. rewrite decide_False.
  - by rewrite live_app.
  - by rewrite <- elem_of_live.
Qed.

Lemma live_set_delete (f : listener) (d : SetData) :
  live (set_delete f d) = filter (λ g, g ≠ f) (live d).
Proof.
  unfold live, set_delete.
  induction d as [|[g|] d IH]; [done| |].
  - rewrite fmap_cons. destruct (decide (Some g = Some f)) as [Heq|Hne].
    + injection Heq as ->. cbn [omap list_omap id]. rewrite IH.
      rewrite filter_cons_False; [done|]. by intros H.
    + cbn [omap list_omap id]. rewrite IH.
      rewrite filter_cons_True; [done|congruence].
  - rewrite fmap_cons. rewrite decide_False by done.
    cbn [omap list_omap id]. apply IH.
Qed.

Lemma set_delete_absent (f : listener) (d : SetData) :
  f ∉ live d → set_delete f d = d.
Proof.
  rewrite elem_of_live. intros H. unfold set_delete.
  induction d as [|x d IH]; simpl; [done|].
  rewrite not_elem_of_cons in H. destruct H as [Hx Hd].
  rewrite decide_False; [|congruence]. f_equal. by apply IH.
Qed.

Lemma NoDup_live_set_add (f : listener) (d : SetData) :
  NoDup (live d) → NoDup (live (set_add f d)).
Proof.
  intros H. destruct (decide (f ∈ live d)) as [Hin|Hout].
  - by rewrite set_add_member.
  - rewrite live_set_add_fresh by done. apply NoDup_app. split_and!; [done| |].
    + intros x Hx Hx'. apply list_elem_of_singleton in Hx'. by subst.
    + apply NoDup_singleton.
Qed.

Lemma NoDup_live_set_delete (f : listener) (d : SetData) :
  NoDup (live d) → NoDup (live (set_delete f d)).
Proof. intros H. rewrite live_set_delete. by apply NoDup_filter. Qed.

(** ** The store: what each operation does to [Map] entries and [Set]s *)

Section Theory.

Context {payload : Type}.
Variable body : listener → payload → list (call payload) → list (action payload).

Implicit Types (h : store payload) (em s : loc) (e : event) (f g : listener)
  (d : payload) (k : list (frame payload)).

Lemma maps_total_ge (l : list (gmap event loc)) (em : loc) (e : event) :
  length l ≤ em → (l !!! em) !! e = None.
Proof.
  intros H. rewrite list_lookup_total_alt, (lookup_ge_None_2 l em H). done.
Qed.

Lemma sets_total_ge (l : list SetData) (s : loc) :
  length l ≤ s → l !!! s = [].
Proof.
  intros H. by rewrite list_lookup_total_alt, (lookup_ge_None_2 l s H).
Qed.

Lemma lookup_set_is_emitter h em e s :
  lookup_set h em e = Some s → is_emitter h em.
Proof.
  unfold lookup_set, is_emitter. intros H.
  destruct (decide (em < length (maps h))) as [|Hge]; [done|].
  rewrite maps_total_ge in H by lia. done.
Qed.

Lemma alter_total_same (g0 : SetData → SetData) (l : list SetData) (s : loc) :
  g0 (l !!! s) = l !!! s → alter g0 s l = l.
Proof.
  intros H. apply list_eq. intros i. destruct (decide (s = i)) as [<-|Hne].
  - rewrite list_lookup_alter_eq. destruct (l !! s) as [x|] eqn:Hx; [|done].
    simpl. f_equal. by rewrite (list_lookup_total_correct l s x Hx) in H.
  - by rewrite list_lookup_alter_ne.
Qed.

Lemma alter_total_eq (g0 : SetData → SetData) (l : list SetData) (s : loc) :
  s < length l → alter g0 s l !!! s = g0 (l !!! s).
Proof. intros H. by apply list_lookup_total_alter_eq. Qed.

Lemma alter_total_ne (g0 : SetData → SetData) (l : list SetData) (s s' : loc) :
  s ≠ s' → alter g0 s l !!! s' = l !!! s'.
Proof. intros H. by apply list_lookup_total_alter_ne. Qed.

Lemma store_eta h : Store (sets h) (maps h) (log h) = h.
Proof. by destruct h. Qed.

Lemma lookup_set_create h em e :
  lookup_set (createEmitter h).2 em e = lookup_set h em e.
Proof.
  unfold lookup_set, createEmitter. simpl.
  destruct (decide (em < length (maps h))) as [Hlt|Hge].
  - by rewrite lookup_total_app_l.
  - rewrite (maps_total_ge (maps h)) by lia.
    destruct (decide (em = length (maps h))) as [->|Hne].
    + rewrite lookup_total_app_r by lia. by rewrite Nat.sub_diag.
    + apply maps_total_ge. rewrite length_app. simpl. lia.
Qed.

Lemma lookup_set_off h em e f em' e' :
  lookup_set (off em e f h) em' e' = lookup_set h em' e'.
Proof. unfold off. by destruct (lookup_set h em e). Qed.

Lemma lookup_set_unsub h (u : unsub) em e :
  lookup_set (call_unsub u h) em e = lookup_set h em e.
Proof. done. Qed.

Lemma lookup_set_on_old h em e f em' e' s :
  lookup_set h em' e' = Some s → lookup_set (on em e f h).2 em' e' = Some s.
Proof.
  intros H. unfold on. destruct (lookup_set h em e) as [s0|] eqn:Hs; [done|].
  unfold lookup_set in *. simpl.
  destruct (decide (em = em')) as [<-|Hne].
  - assert (em < length (maps h)) as Hlt
      by (eapply lookup_set_is_emitter; exact H).
    rewrite list_lookup_total_insert_eq by done.
    destruct (decide (e = e')) as [<-|Hne']; [congruence|].
    by rewrite lookup_insert_ne.
  - by rewrite list_lookup_total_insert_ne.
Qed.

Lemma lookup_set_on_new h em e f :
  is_emitter h em →
  lookup_set (on em e f h).2 em e = Some (u_set (on em e f h).1).
Proof.
  intros Hem. unfold on. destruct (lookup_set h em e) as [s0|] eqn:Hs; [done|].
  unfold lookup_set. simpl. rewrite list_lookup_total_insert_eq by done.
  by rewrite lookup_insert_eq.
Qed.

Lemma lookup_set_on_inv h em e f em' e' s :
  lookup_set (on em e f h).2 em' e' = Some s →
  lookup_set h em' e' = Some s ∨
  (em' = em ∧ e' = e ∧ s = length (sets h) ∧ lookup_set h em e = None).
Proof.
  unfold on. destruct (lookup_set h em e) as [s0|] eqn:Hs; [by left|].
  unfold lookup_set in *. simpl.
  destruct (decide (em < length (maps h))) as [Hlt|Hge].
  - destruct (decide (em = em')) as [<-|Hne].
    + rewrite list_lookup_total_insert_eq by done.
      destruct (decide (e = e')) as [<-|Hne'].
      * rewrite lookup_insert_eq. intros [= <-]. by right.
      * rewrite lookup_insert_ne by done. by left.
    + rewrite list_lookup_total_insert_ne by done. by left.
  - rewrite list_insert_ge by lia. by left.
Qed.

Lemma sets_on h em e f :
  sets (on em e f h).2 =
  match lookup_set h em e with
  | Some s => alter (set_add f) s (sets h)
  | None => sets h ++ [set_add f []]
  end.
Proof. unfold on. by destruct (lookup_set h em e). Qed.

Lemma log_on h em e f : log (on em e f h).2 = log h.
Proof. unfold on. by destruct (lookup_set h em e). Qed.

Lemma sets_off h em e f :
  sets (off em e f h) =
  match lookup_set h em e with
  | Some s => alter (set_delete f) s (sets h)
  | None => sets h
  end.
Proof. unfold off. by destruct (lookup_set h em e). Qed.

Lemma alter_total_pres (P : SetData → Prop) (g0 : SetData → SetData)
    (l : list SetData) (s0 : loc) :
  (∀ x, P x → P (g0 x)) → (∀ s, P (l !!! s)) → ∀ s, P (alter g0 s0 l !!! s).
Proof.
  intros Hg Hl s. destruct (decide (s0 = s)) as [<-|Hne].
  - specialize (Hl s0). rewrite list_lookup_total_alt in *.
    rewrite list_lookup_alter_eq. destruct (l !! s0); simpl in *; auto.
  - rewrite alter_total_ne by done. apply Hl.
Qed.

(** ** Well-formedness is kept by every operation *)

Lemma wf_ext h h' : sets h = sets h' → maps h = maps h' → wf h → wf h'.
Proof.
  intros Hs Hm [Ha Hi Hn]. split; unfold lookup_set in *; rewrite <- ?Hs, <- ?Hm; auto.
Qed.

Lemma wf_init : wf (init (payload:=payload)).
Proof.
  split; unfold lookup_set, init; cbn [maps sets].
  - intros em e s H. rewrite maps_total_ge in H by (simpl; lia). done.
  - intros em1 e1 em2 e2 s H. rewrite maps_total_ge in H by (simpl; lia). done.
  - intros s. rewrite sets_total_ge by (simpl; lia). apply NoDup_nil_2.
Qed.

Lemma wf_create h : wf h → wf (createEmitter h).2.
Proof.
  intros [Ha Hi Hn]. split.
  - intros em e s. rewrite lookup_set_create. apply Ha.
  - intros em1 e1 em2 e2 s. rewrite !lookup_set_create. apply Hi.
  - apply Hn.
Qed.

Lemma wf_alter h (g0 : SetData → SetData) s0 :
  (∀ x, NoDup (live x) → NoDup (live (g0 x))) →
  wf h → wf (with_sets (alter g0 s0) h).
Proof.
  intros Hg [Ha Hi Hn]. split.
  - intros em e s H. simpl. rewrite length_alter. by eapply Ha.
  - intros em1 e1 em2 e2 s. apply Hi.
  - simpl. by apply (alter_total_pres (λ x, NoDup (live x))).
Qed.

Lemma wf_off h em e f : wf h → wf (off em e f h).
Proof.
  intros H. unfold off. destruct (lookup_set h em e); [|done].
  apply wf_alter; auto using NoDup_live_set_delete.
Qed.

Lemma wf_unsub h (u : unsub) : wf h → wf (call_unsub u h).
Proof. intros H. apply wf_alter; auto using NoDup_live_set_delete. Qed.

Lemma wf_on h em e f : wf h → wf (on em e f h).2.
Proof.
  intros H. destruct (lookup_set h em e) as [s0|] eqn:Hs.
  - unfold on. rewrite Hs. apply wf_alter; auto using NoDup_live_set_add.
  - destruct H as [Ha Hi Hn]. split.
    + intros em' e' s H. rewrite sets_on, Hs, length_app. simpl.
      apply lookup_set_on_inv in H as [H|(_ & _ & -> & _)]; [|lia].
      apply Ha in H. lia.
    + intros em1 e1 em2 e2 s H1 H2.
      apply lookup_set_on_inv in H1 as [H1|(-> & -> & -> & _)];
        apply lookup_set_on_inv in H2 as [H2|(-> & -> & H2 & _)].
      * by eapply Hi.
      * apply Ha in H1. lia.
      * apply Ha in H2. lia.
      * done.
    + intros s. rewrite sets_on, Hs.
      destruct (decide (s < length (sets h))) as [Hlt|Hge].
      * rewrite lookup_total_app_l by done. apply Hn.
      * destruct (decide (s = length (sets h))) as [->|Hne].
        -- rewrite lookup_total_app_r by lia. rewrite Nat.sub_diag. simpl.
           apply NoDup_singleton.
        -- rewrite sets_total_ge; [apply NoDup_nil_2|].
           rewrite length_app. simpl. lia.
Qed.

Lemma wf_record_call h f d : wf h → wf (record_call f d h).
Proof. by apply wf_ext. Qed.

Lemma wf_log_calls h (cs : list (call payload)) : wf h → wf (log_calls cs h).
Proof. by apply wf_ext. Qed.

(** ** Executions *)

Lemma run_invariant (P : store payload → Prop) :
  (∀ k h, P h → step_post body P k h) →
  ∀ n k h h', P h → final (run body n k h) = Some h' → P h'.
Proof.
  intros Hstep n. induction n as [|n IH]; intros k h h' HP Hrun.
  - destruct k; simpl in Hrun; [|done]. by injection Hrun as <-.
  - destruct k as [|fr k]; [simpl in Hrun; by injection Hrun as <-|].
    specialize (Hstep (fr :: k) h HP). unfold step_post in Hstep.
    cbn [run] in Hrun. destruct (step body (fr :: k) h) as [[k' h1]|h1].
    + exact (IH _ _ _ Hstep Hrun).
    + simpl in Hrun. by injection Hrun as <-.
Qed.

Lemma wf_step k h : wf h → step_post body wf k h.
Proof.
  intros H. unfold step_post, step.
  destruct k as [|[[|a acts]|s i d] k]; try done.
  - destruct a; auto using wf_create, wf_on, wf_off, wf_unsub.
  - destruct ((sets h !!! s) !! i) as [[f|]|]; auto using wf_record_call.
Qed.

Lemma wf_run n k h h' : wf h → final (run body n k h) = Some h' → wf h'.
Proof. apply (run_invariant wf). apply wf_step. Qed.

(** [Map] entries are only ever added. *)

Lemma stable_refl h : stable h h.
Proof. by split. Qed.

Lemma stable_trans h1 h2 h3 : stable h1 h2 → stable h2 h3 → stable h1 h3.
Proof. intros [L1 H1] [L2 H2]. split; [lia|]. auto. Qed.

Lemma stable_maps h h' : maps h = maps h' → stable h h'.
Proof. intros H. unfold stable, lookup_set. by rewrite H. Qed.

Lemma stable_create h : stable h (createEmitter h).2.
Proof.
  split.
  - simpl. rewrite length_app. lia.
  - intros em e s. by rewrite lookup_set_create.
Qed.

Lemma stable_on h em e f : stable h (on em e f h).2.
Proof.
  split.
  - unfold on. destruct (lookup_set h em e); simpl; [done|].
    by rewrite length_insert.
  - intros em' e' s. apply lookup_set_on_old.
Qed.

Lemma stable_off h em e f : stable h (off em e f h).
Proof. apply stable_maps. unfold off. by destruct (lookup_set h em e). Qed.

Lemma is_emitter_stable h h' em : stable h h' → is_emitter h em → is_emitter h' em.
Proof. intros [Hlen _]. unfold is_emitter. lia. Qed.

Lemma stable_step h0 k h : stable h0 h → step_post body (stable h0) k h.
Proof.
  intros H. unfold step_post, step.
  destruct k as [|[[|a acts]|s i d] k]; try done.
  - destruct a; try done.
    + eapply stable_trans; [done|apply stable_create].
    + eapply stable_trans; [done|apply stable_on].
    + eapply stable_trans; [done|apply stable_off].
  - by destruct ((sets h !!! s) !! i) as [[f|]|].
Qed.

Lemma run_stable n k h h' : final (run body n k h) = Some h' → stable h h'.
Proof.
  apply (run_invariant (stable h)); [apply stable_step|apply stable_refl].
Qed.

Lemma evolves_stable h h' : evolves body h h' → stable h h'.
Proof.
  induction 1 as [|h h1 h2 n prog _ IH Hrun]; [apply stable_refl|].
  eapply stable_trans; [exact IH|]. by eapply run_stable.
Qed.

Lemma evolves_wf h h' : wf h → evolves body h h' → wf h'.
Proof.
  intros Hwf. induction 1 as [|h h1 h2 n prog _ IH Hrun]; [done|].
  eapply wf_run; [|exact Hrun]. by apply IH.
Qed.

(** More fuel never changes the result of an execution that ends. *)

Lemma run_more n m k h :
  is_Some (final (run body n k h)) → run body (n + m) k h = run body n k h.
Proof.
  revert k h. induction n as [|n IH]; intros k h Hfin.
  - destruct k; [by destruct m|]. simpl in Hfin. by destruct Hfin.
  - destruct k as [|fr k]; [done|]. cbn [run Nat.add] in *.
    destruct (step body (fr :: k) h) as [[k' h1]|h1]; [|done]. by apply IH.
Qed.

Lemma run_fuel n n' k h :
  n ≤ n' → is_Some (final (run body n k h)) → run body n' k h = run body n k h.
Proof.
  intros Hle Hfin. replace n' with (n + (n' - n)) by lia. by apply run_more.
Qed.

Lemma run_nil n h : run body n [] h = Returned h.
Proof. by destruct n. Qed.

Lemma log_calls_nil h : log_calls [] h = h.
Proof. unfold log_calls. rewrite app_nil_r. apply store_eta. Qed.

Lemma log_calls_record h f d (cs : list (call payload)) :
  log_calls cs (record_call f d h) = log_calls ((f, d) :: cs) h.
Proof. unfold log_calls, record_call. simpl. by rewrite <- app_assoc. Qed.

Lemma drop_cons_inv {A} (l : list A) i x t :
  drop i l = x :: t → l !! i = Some x ∧ drop (S i) l = t.
Proof.
  intros H. split.
  - rewrite <- (Nat.add_0_r i), <- lookup_drop, H. done.
  - change (S i) with (1 + i). rewrite Nat.add_comm, <- drop_drop, H. done.
Qed.

(** ** The publish loop over listeners that return at once *)

Lemma run_each_plain s d (l : SetData) : ∀ i h k n,
  drop i (sets h !!! s) = l →
  Forall (λ f, plain body f d) (live l) →
  run body (each_cost l + n) (FEach s i d :: k) h =
  run body n k (log_calls ((λ f, (f, d)) <$> live l) h).
Proof.
  induction l as [|[f|] l IH]; intros i h k n Hdrop Hplain.
  - apply drop_nil_inv in Hdrop.
    change (each_cost [] + n) with (S n). cbn [run step].
    rewrite (lookup_ge_None_2 _ _ Hdrop). simpl. by rewrite log_calls_nil.
  - apply drop_cons_inv in Hdrop as [Hi Hdrop].
    cbn [live omap list_omap id] in Hplain. fold (live l) in Hplain.
    apply Forall_cons in Hplain as [Hf Hplain].
    replace (each_cost (Some f :: l) + n) with (S (S (each_cost l + n)))
      by (unfold each_cost; simpl; lia).
    cbn [run step]. rewrite Hi. rewrite (Hf (log h)). cbn [run step].
    rewrite (IH (S i) (record_call f d h) k n Hdrop Hplain).
    by rewrite log_calls_record.
  - apply drop_cons_inv in Hdrop as [Hi Hdrop].
    replace (each_cost (None :: l) + n) with (S (each_cost l + n))
      by (unfold each_cost; simpl; lia).
    cbn [run step]. rewrite Hi. by apply IH.
Qed.

Lemma run_each_throw s d (l1 : SetData) f (l2 : SetData) : ∀ i h k n,
  drop i (sets h !!! s) = l1 ++ Some f :: l2 →
  Forall (λ g, plain body g d) (live l1) →
  throws body f d →
  run body (each_cost l1 + 1 + n) (FEach s i d :: k) h =
  Threw (log_calls (((λ g, (g, d)) <$> live l1) ++ [(f, d)]) h).
Proof.
  induction l1 as [|[g|] l1 IH]; intros i h k n Hdrop Hplain Hthrow.
  - apply drop_cons_inv in Hdrop as [Hi Hdrop].
    change (each_cost [] + 1 + n) with (S (S n)). cbn [run step]. rewrite Hi.
    destruct (Hthrow (log h)) as [rest ->]. done.
  - apply drop_cons_inv in Hdrop as [Hi Hdrop].
    cbn [live omap list_omap id] in Hplain. fold (live l1) in Hplain.
    apply Forall_cons in Hplain as [Hg Hplain].
    replace (each_cost (Some g :: l1) + 1 + n)
      with (S (S (each_cost l1 + 1 + n))) by (unfold each_cost; simpl; lia).
    cbn [run step]. rewrite Hi. rewrite (Hg (log h)). cbn [run step].
    rewrite (IH (S i) (record_call g d h) k n Hdrop Hplain Hthrow).
    by rewrite log_calls_record.
  - apply drop_cons_inv in Hdrop as [Hi Hdrop].
    replace (each_cost (None :: l1) + 1 + n) with (S (each_cost l1 + 1 + n))
      by (unfold each_cost; simpl; lia).
    cbn [run step]. rewrite Hi. by apply IH.
Qed.

(** ** Registrations *)

Lemma registered_lookup h em e s :
  lookup_set h em e = Some s → registered h em e = live (sets h !!! s).
Proof. intros H. unfold registered. by rewrite H. Qed.

Lemma registered_none h em e :
  lookup_set h em e = None → registered h em e = [].
Proof. intros H. unfold registered. by rewrite H. Qed.

Lemma registered_NoDup h em e : wf h → NoDup (registered h em e).
Proof.
  intros [_ _ Hn]. unfold registered.
  destruct (lookup_set h em e); [apply Hn|apply NoDup_nil_2].
Qed.

Lemma on_member h em e f : f ∈ registered h em e → (on em e f h).2 = h.
Proof.
  unfold registered, on. destruct (lookup_set h em e) as [s|]; simpl.
  - intros Hin. unfold with_sets.
    rewrite alter_total_same; [apply store_eta|]. by apply set_add_member.
  - by intros ?%elem_of_nil.
Qed.

Lemma on_fresh h em e f :
  wf h → is_emitter h em → f ∉ registered h em e →
  registered (on em e f h).2 em e = registered h em e ++ [f].
Proof.
  intros Hwf Hem Hout.
  pose proof (lookup_set_on_new h em e f Hem) as Hnew.
  rewrite (registered_lookup _ _ _ _ Hnew). revert Hout. clear Hnew.
  unfold registered, on. destruct (lookup_set h em e) as [s|] eqn:Hs; simpl.
  - intros Hout. rewrite alter_total_eq by (by eapply wf_alloc).
    by apply live_set_add_fresh.
  - intros _. rewrite lookup_total_app_r by lia. by rewrite Nat.sub_diag.
Qed.

Lemma on_other h em e f em' e' :
  wf h → em' ≠ em ∨ e' ≠ e →
  registered (on em e f h).2 em' e' = registered h em' e'.
Proof.
  intros Hwf Hne. destruct (lookup_set h em' e') as [s'|] eqn:Hs'.
  - rewrite (registered_lookup _ _ _ _ Hs').
    rewrite (registered_lookup _ _ _ _ (lookup_set_on_old h em e f _ _ _ Hs')).
    f_equal. rewrite sets_on. destruct (lookup_set h em e) as [s|] eqn:Hs.
    + apply alter_total_ne. intros ->.
      destruct (wf_inj _ _ Hwf _ _ _ _ _ Hs Hs') as [-> ->]. by destruct Hne.
    + apply lookup_total_app_l. by eapply wf_alloc.
  - rewrite (registered_none _ _ _ Hs').
    destruct (lookup_set (on em e f h).2 em' e') as [s|] eqn:Hs.
    + apply lookup_set_on_inv in Hs as [Hs|(-> & -> & _)]; [congruence|].
      by destruct Hne.
    + by apply registered_none.
Qed.

Lemma off_absent h em e f : f ∉ registered h em e → off em e f h = h.
Proof.
  unfold registered, off. destruct (lookup_set h em e) as [s|]; [|done].
  intros Hout. unfold with_sets.
  rewrite alter_total_same; [apply store_eta|]. by apply set_delete_absent.
Qed.

Lemma off_same h em e f :
  wf h → registered (off em e f h) em e = filter (λ g, g ≠ f) (registered h em e).
Proof.
  intros Hwf. unfold registered. rewrite lookup_set_off.
  destruct (lookup_set h em e) as [s|] eqn:Hs; [|done].
  rewrite sets_off, Hs. rewrite alter_total_eq by (by eapply wf_alloc).
  apply live_set_delete.
Qed.

Lemma off_other h em e f em' e' :
  wf h → em' ≠ em ∨ e' ≠ e →
  registered (off em e f h) em' e' = registered h em' e'.
Proof.
  intros Hwf Hne. unfold registered. rewrite lookup_set_off.
  destruct (lookup_set h em' e') as [s'|] eqn:Hs'; [|done].
  f_equal. rewrite sets_off. destruct (lookup_set h em e) as [s|] eqn:Hs; [|done].
  apply alter_total_ne. intros ->.
  destruct (wf_inj _ _ Hwf _ _ _ _ _ Hs Hs') as [-> ->]. by destruct Hne.
Qed.

(** The closure of [on] keeps pointing at the [Set] of its name. *)

Lemma unsub_off h em e f s :
  lookup_set h em e = Some s → call_unsub (Unsub s f) h = off em e f h.
Proof. intros H. unfold call_unsub, off. by rewrite H. Qed.

Lemma on_closure h em e f :
  is_emitter h em →
  ∃ s, (on em e f h).1 = Unsub s f ∧ lookup_set (on em e f h).2 em e = Some s.
Proof.
  intros Hem. pose proof (lookup_set_on_new h em e f Hem) as Hnew.
  exists (u_set (on em e f h).1). split; [|done].
  unfold on. by destruct (lookup_set h em e).
Qed.

Lemma closure_later h em e f h' :
  is_emitter h em → evolves body (on em e f h).2 h' →
  ∃ s, (on em e f h).1 = Unsub s f ∧ lookup_set h' em e = Some s.
Proof.
  intros Hem Hev. destruct (on_closure h em e f Hem) as (s & Hu & Hs).
  exists s. split; [done|]. apply evolves_stable in Hev as [_ Hst]. by apply Hst.
Qed.

(** The same holds at every store an execution passes through, between
    caller operations or in the middle of one. *)

Lemma during_post (P : store payload → Prop) h h' :
  (∀ k h1, P h1 → step_post body P k h1) → P h → during body h h' → P h'.
Proof.
  intros Hstep HP. induction 1 as [|h h1 h2 k k' _ IH Hk|h h1 h2 k _ IH Hk];
    [done| |].
  - pose proof (Hstep k h1 (IH HP)) as H. unfold step_post in H.
    by rewrite Hk in H.
  - pose proof (Hstep k h1 (IH HP)) as H. unfold step_post in H.
    by rewrite Hk in H.
Qed.

Lemma during_stable h h' : during body h h' → stable h h'.
Proof.
  apply (during_post (stable h)); [apply stable_step|apply stable_refl].
Qed.

Lemma during_wf h h' : wf h → during body h h' → wf h'.
Proof. intros Hwf. by apply (during_post wf); [apply wf_step|]. Qed.

Lemma run_during n k h h' : final (run body n k h) = Some h' → during body h h'.
Proof.
  apply (run_invariant (during body h)); [|apply during_refl].
  intros k0 h1 H1. unfold step_post.
  destruct (step body k0 h1) as [[k1 h2]|h2] eqn:Hk.
  - by eapply during_step.
  - by eapply during_throw.
Qed.

Lemma evolves_during h h' : evolves body h h' → during body h h'.
Proof.
  induction 1 as [|h h1 h2 n prog _ IH Hrun]; [apply during_refl|].
  revert Hrun. apply (run_invariant (during body h)); [|done].
  intros k0 h3 H3. unfold step_post.
  destruct (step body k0 h3) as [[k1 h4]|h4] eqn:Hk.
  - by eapply during_step.
  - by eapply during_throw.
Qed.

Lemma closure_during h em e f h' :
  is_emitter h em → during body (on em e f h).2 h' →
  ∃ s, (on em e f h).1 = Unsub s f ∧ lookup_set h' em e = Some s.
Proof.
  intros Hem Hev. destruct (on_closure h em e f Hem) as (s & Hu & Hs).
  exists s. split; [done|]. apply during_stable in Hev as [_ Hst]. by apply Hst.
Qed.

(** ** Publishing to listeners that return at once *)

Lemma log_calls_app h (cs1 cs2 : list (call payload)) :
  log_calls cs2 (log_calls cs1 h) = log_calls (cs1 ++ cs2) h.
Proof. unfold log_calls. simpl. by rewrite <- app_assoc. Qed.

Lemma run_emit_frames h em e d k n :
  Forall (λ f, plain body f d) (registered h em e) →
  run body (emit_cost h em e + n) (emit_frames h em e d ++ k) h =
  run body n k (log_calls ((λ f, (f, d)) <$> registered h em e) h).
Proof.
  unfold emit_frames, emit_cost, registered.
  destruct (lookup_set h em e) as [s|]; intros Hplain.
  - exact (run_each_plain s d (sets h !!! s) 0 h k n (drop_0 _) Hplain).
  - simpl. by rewrite log_calls_nil.
Qed.

Lemma emit_plain h em e d n :
  Forall (λ f, plain body f d) (registered h em e) →
  emit_cost h em e ≤ n →
  emit body n em e d h =
  Returned (log_calls ((λ f, (f, d)) <$> registered h em e) h).
Proof.
  intros Hplain Hn. unfold emit.
  replace n with (emit_cost h em e + (n - emit_cost h em e)) by lia.
  rewrite <- (app_nil_r (emit_frames h em e d)).
  rewrite run_emit_frames by done. apply run_nil.
Qed.

Lemma calls_of_fmap f d (l : list listener) :
  calls_of f ((λ g, (g, d)) <$> l) = (λ g, (g, d)) <$> filter (λ g, g = f) l.
Proof.
  unfold calls_of. induction l as [|g l IH]; [done|]. rewrite fmap_cons.
  destruct (decide (g = f)) as [->|Hne].
  - rewrite !filter_cons_True by done. rewrite fmap_cons. f_equal. exact IH.
  - rewrite !filter_cons_False by done. exact IH.
Qed.

Lemma filter_eq_absent f (l : list listener) :
  f ∉ l → filter (λ g, g = f) l = [].
Proof.
  induction l as [|g l IH]; [done|]. rewrite not_elem_of_cons. intros [Hne Hout].
  rewrite filter_cons_False by congruence. by apply IH.
Qed.

Lemma filter_eq_once f (l : list listener) :
  NoDup l → f ∈ l → filter (λ g, g = f) l = [f].
Proof.
  induction l as [|g l IH]; [by intros _ ?%elem_of_nil|].
  rewrite NoDup_cons, elem_of_cons. intros [Hg Hnd] [->|Hin].
  - rewrite filter_cons_True by done. by rewrite filter_eq_absent.
  - rewrite filter_cons_False; [by apply IH|]. intros ->. done.
Qed.

Lemma calls_once f d (l : list listener) :
  NoDup l → f ∈ l → calls_of f ((λ g, (g, d)) <$> l) = [(f, d)].
Proof. intros Hnd Hin. by rewrite calls_of_fmap, filter_eq_once. Qed.

Lemma calls_none f d (l : list listener) :
  f ∉ l → calls_of f ((λ g, (g, d)) <$> l) = [].
Proof. intros Hout. by rewrite calls_of_fmap, filter_eq_absent. Qed.

Lemma run_emits em e (ds : list payload) : ∀ h acts k n,
  (∀ d, d ∈ ds → Forall (λ f, plain body f d) (registered h em e)) →
  run body (length ds * (emit_cost h em e + 1) + n)
      (FActs (emits em e ds ++ acts) :: k) h =
  run body n (FActs acts :: k)
      (log_calls (ds ≫= λ d, (λ f, (f, d)) <$> registered h em e) h).
Proof.
  induction ds as [|d ds IH]; intros h acts k n Hplain.
  - simpl. by rewrite log_calls_nil.
  - replace (length (d :: ds) * (emit_cost h em e + 1) + n)
      with (S (emit_cost h em e + (length ds * (emit_cost h em e + 1) + n)))
      by (simpl; lia).
    cbn [emits fmap list_fmap app run step].
    rewrite run_emit_frames by (apply Hplain; left).
    set (h1 := log_calls ((λ f, (f, d)) <$> registered h em e) h).
    change (emit_cost h em e) with (emit_cost h1 em e).
    fold (emits em e ds).
    rewrite IH by (intros d' Hd'; apply (Hplain d'); by right).
    subst h1. by rewrite log_calls_app.
Qed.

Lemma calls_of_app f (cs1 cs2 : list (call payload)) :
  calls_of f (cs1 ++ cs2) = calls_of f cs1 ++ calls_of f cs2.
Proof. apply filter_app. Qed.

Lemma calls_of_rounds f (l : list listener) (ds : list payload) :
  NoDup l → f ∈ l →
  calls_of f (ds ≫= λ d, (λ g, (g, d)) <$> l) = (λ d, (f, d)) <$> ds.
Proof.
  intros Hnd Hin. induction ds as [|d ds IH]; [done|].
  cbn [mbind list_bind fmap list_fmap]. rewrite calls_of_app.
  rewrite calls_once by done. simpl. f_equal. exact IH.
Qed.

Lemma live_split (l : SetData) : ∀ pre f post,
  live l = pre ++ f :: post →
  ∃ l1 l2, l = l1 ++ Some f :: l2 ∧ live l1 = pre ∧ live l2 = post.
Proof.
  induction l as [|[g|] l IH]; intros pre f post H.
  - by destruct pre.
  - change (live (Some g :: l)) with (g :: live l) in H.
    destruct pre as [|p pre]; simpl in H; injection H as -> H.
    + exists [], l. by rewrite <- H.
    + destruct (IH _ _ _ H) as (l1 & l2 & -> & <- & <-).
      by exists (Some p :: l1), l2.
  - change (live (None :: l)) with (live l) in H.
    destruct (IH _ _ _ H) as (l1 & l2 & -> & <- & <-).
    by exists (None :: l1), l2.
Qed.

Lemma filter_ne_absent f (l : list listener) :
  f ∉ l → filter (λ g, g ≠ f) l = l.
Proof.
  induction l as [|g l IH]; [done|]. rewrite not_elem_of_cons. intros [Hne Hout].
  rewrite filter_cons_True by congruence. f_equal. by apply IH.
Qed.

Lemma filter_ne_once f (l : list listener) :
  NoDup l → f ∈ l →
  ∃ l1 l2, l = l1 ++ f :: l2 ∧ filter (λ g, g ≠ f) l = l1 ++ l2.
Proof.
  intros Hnd Hin. apply list_elem_of_split in Hin as (l1 & l2 & ->).
  exists l1, l2. split; [done|].
  apply NoDup_app in Hnd as (_ & H1 & [H2 _]%NoDup_cons).
  rewrite filter_app, filter_cons_False by (by intros H).
  rewrite !filter_ne_absent; [done|done|].
  intros Hin. apply (H1 f Hin). by left.
Qed.

Lemma not_elem_of_filter_ne f (l : list listener) :
  f ∉ filter (λ g, g ≠ f) l.
Proof. rewrite list_elem_of_filter. by intros [H _]. Qed.

Lemma emit_throw h em e d (pre : list listener) f (post : list listener) n :
  registered h em e = pre ++ f :: post →
  Forall (λ g, plain body g d) pre →
  throws body f d →
  emit_cost h em e ≤ n →
  emit body n em e d h =
  Threw (log_calls (((λ g, (g, d)) <$> pre) ++ [(f, d)]) h).
Proof.
  unfold registered, emit, emit_frames, emit_cost.
  destruct (lookup_set h em e) as [s|]; [|by destruct pre].
  intros Hreg Hplain Hthrow Hn.
  destruct (live_split _ _ _ _ Hreg) as (l1 & l2 & Hl & <- & _).
  assert (each_cost l1 + 1 ≤ n) as Hle.
  { rewrite Hl in Hn. unfold each_cost in *.
    rewrite length_app, live_app, length_app in Hn. simpl in Hn. lia. }
  replace n with (each_cost l1 + 1 + (n - (each_cost l1 + 1))) by lia.
  apply (run_each_throw s d l1 f l2); [by rewrite drop_0|done|done].
Qed.

(** ** The claims *)

(** C3. [publish(N, v)] invokes every listener currently registered for [N],
    in subscription order, each with [v] as its sole argument: the calls it
    records are exactly the registered listeners, in order, each paired with
    [v]; and subscription order is registration order, a new listener going
    to the end.  Stated for listeners that return without re-entering the
    emitter. *)
Theorem C3_publish_in_subscription_order h em e d n :
  Forall (λ f, plain body f d) (registered h em e) →
  emit_cost h em e ≤ n →
  emit body n em e d h =
    Returned (log_calls ((λ f, (f, d)) <$> registered h em e) h) ∧
  (∀ f, wf h → is_emitter h em → f ∉ registered h em e →
     registered (on em e f h).2 em e = registered h em e ++ [f]).
Proof.
  intros Hplain Hn. split; [by apply emit_plain|].
  intros f Hwf Hem Hout. by apply on_fresh.
Qed.

(** C4. After [register(N, f)] for a listener [f] not yet registered under
    [N], [publish(N, v)] invokes [f] exactly once, with [v]; registering
    invokes nothing. *)
Theorem C4_register_then_publish h em e f d n :
  wf h → is_emitter h em → f ∉ registered h em e →
  Forall (λ g, plain body g d) (registered h em e) → plain body f d →
  let h1 := (on em e f h).2 in
  let cs := (λ g, (g, d)) <$> registered h1 em e in
  emit_cost h1 em e ≤ n →
  log h1 = log h ∧
  emit body n em e d h1 = Returned (log_calls cs h1) ∧
  calls_of f cs = [(f, d)].
Proof.
  intros Hwf Hem Hout Hplain Hf h1 cs Hn. subst h1 cs.
  pose proof (on_fresh h em e f Hwf Hem Hout) as Hreg.
  split_and!.
  - apply log_on.
  - apply emit_plain; [|done]. rewrite Hreg. apply Forall_app. split; [done|].
    by apply Forall_singleton.
  - apply calls_once.
    + apply registered_NoDup. by apply wf_on.
    + rewrite Hreg. apply elem_of_app. right. by left.
Qed.

(** C6. When the first listener whose invocation faults is [f], with [pre]
    registered before it and [post] after it, [publish(N, v)] ends in that
    fault, uncaught; each listener of [pre] has been invoked once with [v],
    then [f]; no listener of [post] is invoked. *)
Theorem C6_fault_stops_delivery h em e d (pre : list listener) f
    (post : list listener) n :
  wf h →
  registered h em e = pre ++ f :: post →
  Forall (λ g, plain body g d) pre →
  throws body f d →
  emit_cost h em e ≤ n →
  let cs := ((λ g, (g, d)) <$> pre) ++ [(f, d)] in
  emit body n em e d h = Threw (log_calls cs h) ∧
  (∀ g, g ∈ pre → calls_of g cs = [(g, d)]) ∧
  (∀ g, g ∈ post → calls_of g cs = []).
Proof.
  intros Hwf Hreg Hplain Hthrow Hn cs.
  pose proof (registered_NoDup h em e Hwf) as Hnd. rewrite Hreg in Hnd.
  apply NoDup_app in Hnd as (Hpre & Hdisj & [Hf Hpost]%NoDup_cons).
  assert (cs = (λ g, (g, d)) <$> (pre ++ [f])) as ->
    by (subst cs; by rewrite fmap_app).
  split_and!.
  - rewrite fmap_app. by eapply emit_throw.
  - intros g Hg. apply calls_once.
    + apply NoDup_app. split_and!; [done| |apply NoDup_singleton].
      intros x Hx Hx'%list_elem_of_singleton. subst x.
      apply (Hdisj f Hx). by left.
    + apply elem_of_app. by left.
  - intros g Hg. apply calls_none. rewrite not_elem_of_app. split.
    + intros Hin. apply (Hdisj g Hin). by right.
    + intros Hg'%list_elem_of_singleton. by subst g.
Qed.

(** C7. [publish(N, v)] when no listener is registered for [N], and
    [unregister(N, f)] for a name without a registry entry or for a listener
    not registered under [N], return normally and leave the store as it
    was. *)
Theorem C7_noop_safety h em e f d n :
  (registered h em e = [] → emit_cost h em e ≤ n →
     emit body n em e d h = Returned h) ∧
  (lookup_set h em e = None → off em e f h = h) ∧
  (f ∉ registered h em e → off em e f h = h).
Proof.
  split_and!.
  - intros Hreg Hn. rewrite emit_plain; [|by rewrite Hreg|done].
    by rewrite Hreg, log_calls_nil.
  - intros Hs. unfold off. by rewrite Hs.
  - apply off_absent.
Qed.

(** C8. A listener registered only for name [A] is not invoked by a publish
    for another name [B]. *)
Theorem C8_name_isolation h em (A B : event) f d n :
  wf h → is_emitter h em → A ≠ B → f ∉ registered h em B →
  Forall (λ g, plain body g d) (registered h em B) →
  let h1 := (on em A f h).2 in
  let cs := (λ g, (g, d)) <$> registered h1 em B in
  emit_cost h1 em B ≤ n →
  f ∈ registered h1 em A ∧
  emit body n em B d h1 = Returned (log_calls cs h1) ∧
  calls_of f cs = [].
Proof.
  intros Hwf Hem Hne Hout Hplain h1 cs Hn. subst h1 cs.
  assert (registered (on em A f h).2 em B = registered h em B) as HB
    by (apply on_other; [done|right; congruence]).
  split_and!.
  - destruct (decide (f ∈ registered h em A)) as [Hin|Hnin].
    + by rewrite on_member.
    + rewrite on_fresh by done. apply elem_of_app. right. by left.
  - apply emit_plain; [by rewrite HB|done].
  - apply calls_none. by rewrite HB.
Qed.

(** C10. The callable returned by [register(N, f)] does what
    [unregister(N, f)] does: in every store an execution passes through
    later (between caller operations or in the middle of a publish),
    whichever registration the callable came from and whatever was run in
    between, both leave the same store, and that store has [f] removed by
    reference from the current collection of [N]: the other members keep
    their order, [f] is no longer a member, and every other collection is as
    it was. *)
Theorem C10_unsubscribe_is_unregister h em e f h' :
  is_emitter h em →
  during body (on em e f h).2 h' →
  let u := (on em e f h).1 in
  call_unsub u h' = off em e f h' ∧
  (wf h →
   registered (call_unsub u h') em e =
     filter (λ g, g ≠ f) (registered h' em e) ∧
   registered (off em e f h') em e =
     filter (λ g, g ≠ f) (registered h' em e) ∧
   (f ∉ registered (call_unsub u h') em e) ∧
   (∀ g, g ≠ f → g ∈ registered h' em e →
      g ∈ registered (call_unsub u h') em e) ∧
   (∀ em' e', em' ≠ em ∨ e' ≠ e →
      registered (call_unsub u h') em' e' = registered h' em' e')).
Proof.
  intros Hem Hev u. subst u.
  destruct (closure_during h em e f h' Hem Hev) as (s & -> & Hs).
  assert (call_unsub (Unsub s f) h' = off em e f h') as Heq.
  { unfold call_unsub, off. cbn [u_set u_fn]. by rewrite Hs. }
  split; [done|]. intros Hwf. rewrite Heq.
  assert (wf h') as Hwf'.
  { eapply during_wf; [|exact Hev]. by apply wf_on. }
  split_and!.
  - by apply off_same.
  - by apply off_same.
  - rewrite off_same by done. apply not_elem_of_filter_ne.
  - intros g Hne Hg. rewrite off_same by done. by apply list_elem_of_filter.
  - intros em' e' Hne. by apply off_other.
Qed.

(** C1, as the code has it.  The collection is a [Set] keyed by reference:
    registering a listener that is already registered under [N] changes
    nothing, there is still one entry for it, and a later [publish(N, v)]
    invokes it exactly once. *)
Theorem C1_second_registration_is_absorbed h em e f d n :
  wf h → f ∈ registered h em e →
  Forall (λ g, plain body g d) (registered h em e) →
  emit_cost h em e ≤ n →
  let h1 := (on em e f h).2 in
  let cs := (λ g, (g, d)) <$> registered h1 em e in
  h1 = h ∧
  filter (λ g, g = f) (registered h1 em e) = [f] ∧
  emit body n em e d h1 = Returned (log_calls cs h1) ∧
  calls_of f cs = [(f, d)].
Proof.
  intros Hwf Hin Hplain Hn h1 cs. subst h1 cs. rewrite (on_member _ _ _ _ Hin).
  pose proof (registered_NoDup h em e Hwf) as Hnd.
  split_and!; [done|by apply filter_eq_once|by apply emit_plain|].
  by apply calls_once.
Qed.

(** C2, as the code has it.  The callable returned by [register(N, f)]
    removes the entry of [f] under [N] and nothing else when first invoked;
    invoked again at once it changes nothing; and after any operations in
    between, it changes nothing provided [f] is not registered under [N] at
    that moment. *)
Theorem C2_unsubscribe_once h em e f :
  wf h → is_emitter h em →
  let u := (on em e f h).1 in
  let h1 := (on em e f h).2 in
  (∃ l1 l2, registered h1 em e = l1 ++ f :: l2 ∧
            registered (call_unsub u h1) em e = l1 ++ l2) ∧
  (∀ em' e', em' ≠ em ∨ e' ≠ e →
     registered (call_unsub u h1) em' e' = registered h1 em' e') ∧
  call_unsub u (call_unsub u h1) = call_unsub u h1 ∧
  (∀ h', evolves body h1 h' → f ∉ registered h' em e → call_unsub u h' = h').
Proof.
  intros Hwf Hem u h1.
  assert (wf h1) as Hwf1 by (by apply wf_on).
  assert (∀ h', evolves body h1 h' → call_unsub u h' = off em e f h') as Hoff.
  { intros h' Hev. subst u.
    destruct (closure_later h em e f h' Hem Hev) as (s & -> & Hs).
    by apply unsub_off. }
  assert (f ∈ registered h1 em e) as Hin.
  { subst h1. destruct (decide (f ∈ registered h em e)) as [Hin|Hout].
    - by rewrite on_member.
    - rewrite on_fresh by done. apply elem_of_app. right. by left. }
  assert (call_unsub u h1 = off em e f h1) as Hfirst
    by (apply Hoff; constructor).
  split_and!.
  - rewrite Hfirst, off_same by done.
    apply filter_ne_once; [by apply registered_NoDup|done].
  - intros em' e' Hne. rewrite Hfirst. by apply off_other.
  - assert (evolves body h1 (off em e f h1)) as Hev.
    { apply (evolves_run _ body h1 h1 _ 2 [AOff em e f]); [constructor|done]. }
    rewrite Hfirst, (Hoff _ Hev). apply off_absent. rewrite off_same by done.
    apply not_elem_of_filter_ne.
  - intros h' Hev Hout. rewrite (Hoff h' Hev). by apply off_absent.
Qed.

(** C5. After [register(N, f)], the returned unsubscribe, and
    [register(N, f)] again, [f] has one entry under [N], at the end, and
    every subsequent [publish(N, v)] invokes [f] exactly once with that
    [v]. *)
Theorem C5_resubscribe_after_unsubscribe h em e f (ds : list payload) n :
  wf h → is_emitter h em →
  let h1 := (on em e f h).2 in
  let h2 := call_unsub (on em e f h).1 h1 in
  let h3 := (on em e f h2).2 in
  let cs := ds ≫= λ d, (λ g, (g, d)) <$> registered h3 em e in
  (∀ d, d ∈ ds → Forall (λ g, plain body g d) (registered h3 em e)) →
  length ds * (emit_cost h3 em e + 1) + 1 ≤ n →
  registered h3 em e = filter (λ g, g ≠ f) (registered h em e) ++ [f] ∧
  run body n [FActs (emits em e ds)] h3 = Returned (log_calls cs h3) ∧
  calls_of f cs = (λ d, (f, d)) <$> ds.
Proof.
  intros Hwf Hem h1 h2 h3 cs Hplain Hn.
  assert (wf h1) as Hwf1 by (by apply wf_on).
  assert (h2 = off em e f h1) as Hh2.
  { subst h2.
    destruct (closure_later h em e f h1 Hem (evolves_refl _ body h1))
      as (s & -> & Hs).
    by apply unsub_off. }
  assert (wf h2) as Hwf2 by (rewrite Hh2; by apply wf_off).
  assert (is_emitter h2 em) as Hem2.
  { apply (is_emitter_stable h1); [by apply stable_maps|].
    apply (is_emitter_stable h); [apply stable_on|done]. }
  assert (registered h2 em e = filter (λ g, g ≠ f) (registered h em e)) as Hreg2.
  { rewrite Hh2, off_same by done. subst h1.
    destruct (decide (f ∈ registered h em e)) as [Hin|Hout].
    - by rewrite on_member.
    - rewrite on_fresh by done. rewrite filter_app.
      rewrite filter_cons_False by (by intros H). by rewrite app_nil_r. }
  assert (registered h3 em e = filter (λ g, g ≠ f) (registered h em e) ++ [f])
    as Hreg3.
  { subst h3. rewrite on_fresh; [by rewrite Hreg2|done|done|].
    rewrite Hreg2. apply not_elem_of_filter_ne. }
  split_and!; [done| |].
  - replace n with
      (length ds * (emit_cost h3 em e + 1) +
       (n - length ds * (emit_cost h3 em e + 1))) by lia.
    rewrite <- (app_nil_r (emits em e ds)).
    rewrite run_emits by done.
    destruct (n - length ds * (emit_cost h3 em e + 1)) as [|m] eqn:Hm; [lia|].
    cbn [run step]. apply run_nil.
  - subst cs. apply calls_of_rounds.
    + apply registered_NoDup. by apply wf_on.
    + rewrite Hreg3. apply elem_of_app. right. by left.
Qed.

(** C9. Emitters made by separate [createEmitter] calls share nothing:
    registering, unregistering, unsubscribing and publishing on one leave
    every collection of the other as it was, publishing on one invokes no
    listener that is not registered on it, and a new emitter starts empty
    without disturbing the existing ones. *)
Theorem C9_instance_isolation h em1 em2 e e2 f d n :
  wf h → em1 ≠ em2 →
  let u := (on em1 e f h).1 in
  let h1 := (on em1 e f h).2 in
  let cs := (λ g, (g, d)) <$> registered h em1 e in
  registered h1 em2 e2 = registered h em2 e2 ∧
  registered (off em1 e f h) em2 e2 = registered h em2 e2 ∧
  (is_emitter h em1 → ∀ h', evolves body h1 h' →
     registered (call_unsub u h') em2 e2 = registered h' em2 e2) ∧
  (Forall (λ g, plain body g d) (registered h em1 e) →
   emit_cost h em1 e ≤ n →
     emit body n em1 e d h = Returned (log_calls cs h) ∧
     registered (log_calls cs h) em2 e2 = registered h em2 e2 ∧
     ∀ g, g ∉ registered h em1 e → calls_of g cs = []) ∧
  (let em3 := (createEmitter h).1 in
   let h3 := (createEmitter h).2 in
   ¬ is_emitter h em3 ∧ is_emitter h3 em3 ∧
   (∀ e3, registered h3 em3 e3 = []) ∧
   (∀ em e', registered h3 em e' = registered h em e')).
Proof.
  intros Hwf Hne u h1 cs. split_and!.
  - apply on_other; [done|left; congruence].
  - apply off_other; [done|left; congruence].
  - intros Hem h' Hev. subst u.
    destruct (closure_later h em1 e f h' Hem Hev) as (s & -> & Hs).
    rewrite (unsub_off _ _ _ _ _ Hs). apply off_other; [|left; congruence].
    eapply evolves_wf; [|exact Hev]. by apply wf_on.
  - intros Hplain Hn. split_and!; [by apply emit_plain|done|].
    intros g Hg. by apply calls_none.
  - intros em3 h3. subst em3 h3. split_and!.
    + unfold is_emitter. simpl. lia.
    + unfold is_emitter. simpl. rewrite length_app. simpl. lia.
    + intros e3. apply registered_none. rewrite lookup_set_create.
      apply maps_total_ge. simpl. lia.
    + intros em e'. unfold registered. by rewrite lookup_set_create.
Qed.

(** ** Beyond the claims: what [on] and [off] do to the collections *)

Lemma on_registers h em e f :
  wf h → is_emitter h em → f ∈ registered (on em e f h).2 em e.
Proof.
  intros Hwf Hem. destruct (decide (f ∈ registered h em e)) as [Hin|Hout].
  - by rewrite on_member.
  - rewrite on_fresh by done. apply elem_of_app. right. by left.
Qed.

Lemma off_Some h em e f s :
  lookup_set h em e = Some s → off em e f h = with_sets (alter (set_delete f) s) h.
Proof. intros H. unfold off. by rewrite H. Qed.

Lemma off_None h em e f : lookup_set h em e = None → off em e f h = h.
Proof. intros H. unfold off. by rewrite H. Qed.

Lemma set_delete_comm f g (l : SetData) :
  set_delete f (set_delete g l) = set_delete g (set_delete f l).
Proof.
  unfold set_delete. rewrite <- !list_fmap_compose. apply list_fmap_ext.
  intros _ x _. simpl. repeat case_decide; congruence.
Qed.

Lemma set_delete_twice f (l : SetData) :
  set_delete f (set_delete f l) = set_delete f l.
Proof.
  apply set_delete_absent. rewrite live_set_delete. apply not_elem_of_filter_ne.
Qed.

(** X1. [on(event, listener)] adds the listener at the end of the
    collection of its name unless it is a member already, keeps every other
    member in place, leaves every other collection alone and invokes
    nothing. *)
Theorem on_postcondition h em e f :
  wf h → is_emitter h em →
  let h1 := (on em e f h).2 in
  registered h1 em e =
    registered h em e ++ (if decide (f ∈ registered h em e) then [] else [f]) ∧
  (∀ em' e', em' ≠ em ∨ e' ≠ e → registered h1 em' e' = registered h em' e') ∧
  log h1 = log h.
Proof.
  intros Hwf Hem h1. subst h1. split_and!.
  - case_decide as Hin.
    + by rewrite on_member, app_nil_r.
    + by apply on_fresh.
  - intros em' e' Hne. by apply on_other.
  - apply log_on.
Qed.

(** X2. Subscribing a listener that was not a member and then invoking the
    returned closure gives back the collections as they were, under every
    name of every emitter. *)
Theorem subscribe_unsubscribe_round_trip h em e f em' e' :
  wf h → is_emitter h em → f ∉ registered h em e →
  registered (call_unsub (on em e f h).1 (on em e f h).2) em' e' =
  registered h em' e'.
Proof.
  intros Hwf Hem Hout.
  destruct (closure_later h em e f _ Hem (evolves_refl _ body _))
    as (s & -> & Hs).
  rewrite (unsub_off _ _ _ _ _ Hs).
  assert (wf (on em e f h).2) as Hwf1 by (by apply wf_on).
  destruct (decide (em' = em ∧ e' = e)) as [[-> ->]|Hne].
  - rewrite off_same, on_fresh by done. rewrite filter_app.
    rewrite filter_cons_False by (by intros H). rewrite app_nil_r.
    by apply filter_ne_absent.
  - assert (em' ≠ em ∨ e' ≠ e) as Hne'.
    { destruct (decide (em' = em)); [right|left]; naive_solver. }
    rewrite off_other, on_other by done. done.
Qed.

(** X3. [off(event, listener)] removes the listener from the collection of
    its name, keeps the others in their order and leaves every other
    collection alone; the next publish invokes exactly the others, in order,
    and not the removed listener. *)
Theorem off_then_publish h em e f d n :
  wf h →
  let h1 := off em e f h in
  let cs := (λ g, (g, d)) <$> registered h1 em e in
  Forall (λ g, plain body g d) (registered h1 em e) →
  emit_cost h1 em e ≤ n →
  registered h1 em e = filter (λ g, g ≠ f) (registered h em e) ∧
  (∀ em' e', em' ≠ em ∨ e' ≠ e → registered h1 em' e' = registered h em' e') ∧
  emit body n em e d h1 = Returned (log_calls cs h1) ∧
  calls_of f cs = [].
Proof.
  intros Hwf h1 cs Hplain Hn. subst h1 cs. split_and!.
  - by apply off_same.
  - intros em' e' Hne. by apply off_other.
  - by apply emit_plain.
  - apply calls_none. rewrite off_same by done. apply not_elem_of_filter_ne.
Qed.

(** X4. [off] is idempotent: a second [off] with the same arguments finds
    nothing to remove. *)
Theorem off_idempotent h em e f :
  off em e f (off em e f h) = off em e f h.
Proof.
  destruct (lookup_set h em e) as [s|] eqn:Hs.
  - rewrite (off_Some (off em e f h) em e f s) by (by rewrite lookup_set_off).
    rewrite (off_Some h em e f s Hs). unfold with_sets. simpl. f_equal.
    rewrite list_alter_alter_eq. apply list_alter_ext; [|done].
    intros x _. apply set_delete_twice.
  - by rewrite !(off_None h em e f Hs).
Qed.

(** X5. Two [off] calls commute, whatever their names and listeners. *)
Theorem off_commutes h em e f em' e' g :
  off em e f (off em' e' g h) = off em' e' g (off em e f h).
Proof.
  destruct (lookup_set h em e) as [s|] eqn:Hs;
    destruct (lookup_set h em' e') as [s'|] eqn:Hs'.
  - rewrite (off_Some (off em' e' g h) em e f s) by (by rewrite lookup_set_off).
    rewrite (off_Some (off em e f h) em' e' g s') by (by rewrite lookup_set_off).
    rewrite (off_Some h em e f s Hs), (off_Some h em' e' g s' Hs').
    unfold with_sets. simpl. f_equal.
    destruct (decide (s = s')) as [<-|Hne].
    + rewrite !list_alter_alter_eq. apply list_alter_ext; [|done].
      intros x _. apply set_delete_comm.
    + by apply list_alter_alter_ne.
  - rewrite (off_None h em' e' g Hs').
    rewrite (off_None (off em e f h) em' e' g); [done|by rewrite lookup_set_off].
  - rewrite (off_None h em e f Hs).
    rewrite (off_None (off em' e' g h) em e f); [done|by rewrite lookup_set_off].
  - by rewrite (off_None h em e f Hs), (off_None h em' e' g Hs'),
      (off_None h em e f Hs).
Qed.

(** X6. Publishing a sequence of payloads to a listener that stays
    registered invokes it once per publish, with the payloads in the order
    they were published. *)
Theorem repeat_delivery h em e f (ds : list payload) n :
  wf h → f ∈ registered h em e →
  (∀ d, d ∈ ds → Forall (λ g, plain body g d) (registered h em e)) →
  length ds * (emit_cost h em e + 1) + 1 ≤ n →
  let cs := ds ≫= (λ d, (λ g, (g, d)) <$> registered h em e) in
  run body n [FActs (emits em e ds)] h = Returned (log_calls cs h) ∧
  calls_of f cs = (λ d, (f, d)) <$> ds.
Proof.
  intros Hwf Hin Hplain Hn cs. split.
  - replace n with
      (length ds * (emit_cost h em e + 1) +
       (n - length ds * (emit_cost h em e + 1))) by lia.
    rewrite <- (app_nil_r (emits em e ds)). rewrite run_emits by done.
    destruct (n - length ds * (emit_cost h em e + 1)) as [|m] eqn:Hm; [lia|].
    cbn [run step]. apply run_nil.
  - apply calls_of_rounds; [by apply registered_NoDup|done].
Qed.

(** X7. One listener registered under two names of an emitter has two
    independent registrations: removing it from one name leaves it under
    the other. *)
Theorem listener_under_two_names h em (A B : event) f :
  wf h → is_emitter h em → A ≠ B →
  let h2 := (on em B f (on em A f h).2).2 in
  f ∈ registered h2 em A ∧ f ∈ registered h2 em B ∧
  (f ∉ registered (off em A f h2) em A) ∧
  f ∈ registered (off em A f h2) em B.
Proof.
  intros Hwf Hem Hne h2.
  assert (wf (on em A f h).2) as Hwf1 by (by apply wf_on).
  assert (is_emitter (on em A f h).2 em) as Hem1
    by (apply (is_emitter_stable h); [apply stable_on|done]).
  assert (wf h2) as Hwf2 by (by apply wf_on).
  assert (f ∈ registered h2 em B) as HB by (by apply on_registers).
  split_and!.
  - subst h2. rewrite on_other; [by apply on_registers|done|by right].
  - done.
  - rewrite off_same by done. apply not_elem_of_filter_ne.
  - rewrite off_other; [done|done|right; congruence].
Qed.

(** X8. Whatever programs and listeners have run since the first
    [createEmitter], no collection holds a listener twice, no [Set] serves
    two names or two emitters, and every [Map] entry points to a [Set]. *)
Theorem reachable_stores_well_formed h :
  evolves body init h →
  wf h ∧ ∀ em e, NoDup (registered h em e).
Proof.
  intros Hev. assert (wf h) as Hwf by (eapply evolves_wf; [apply wf_init|done]).
  split; [done|]. intros em e. by apply registered_NoDup.
Qed.

(** X9. The code never deletes a [Map] entry: once a name has a [Set], it
    keeps that same [Set] through everything that runs later, also after
    its last listener was removed. *)
Theorem map_entries_persist h h' em e s :
  evolves body h h' → lookup_set h em e = Some s →
  lookup_set h' em e = Some s ∧ is_emitter h' em.
Proof.
  intros Hev Hs. apply evolves_stable in Hev.
  split; [by apply Hev|]. apply (is_emitter_stable h); [done|].
  by eapply lookup_set_is_emitter.
Qed.

(** ** Beyond the claims: listeners that change the collection being
    published, or publish themselves *)

(** The loop up to an entry: the members before it are invoked, the index
    stops in front of it. *)
Lemma run_each_prefix s d (l1 : SetData) : ∀ i h k n (rest : SetData),
  drop i (sets h !!! s) = l1 ++ rest →
  Forall (λ f, plain body f d) (live l1) →
  run body (length l1 + length (live l1) + n) (FEach s i d :: k) h =
  run body n (FEach s (i + length l1) d :: k)
      (log_calls ((λ f, (f, d)) <$> live l1) h).
Proof.
  induction l1 as [|[f|] l1 IH]; intros i h k n rest Hdrop Hplain.
  - simpl. by rewrite Nat.add_0_r, log_calls_nil.
  - apply drop_cons_inv in Hdrop as [Hi Hdrop].
    cbn [live omap list_omap id] in Hplain. fold (live l1) in Hplain.
    apply Forall_cons in Hplain as [Hf Hplain].
    replace (length (Some f :: l1) + length (live (Some f :: l1)) + n)
      with (S (S (length l1 + length (live l1) + n))) by (simpl; lia).
    cbn [run step]. rewrite Hi. rewrite (Hf (log h)). cbn [run step].
    rewrite (IH (S i) (record_call f d h) k n rest Hdrop Hplain).
    rewrite log_calls_record. simpl. by rewrite Nat.add_succ_r.
  - apply drop_cons_inv in Hdrop as [Hi Hdrop].
    replace (length (None :: l1) + length (live (None :: l1)) + n)
      with (S (length l1 + length (live l1) + n)) by (simpl; lia).
    cbn [run step]. rewrite Hi.
    rewrite (IH (S i) h k n rest Hdrop Hplain). simpl. by rewrite Nat.add_succ_r.
Qed.

Lemma off_log_calls h em e f (cs : list (call payload)) :
  off em e f (log_calls cs h) = log_calls cs (off em e f h).
Proof.
  unfold off. change (lookup_set (log_calls cs h) em e) with (lookup_set h em e).
  by destruct (lookup_set h em e).
Qed.

Lemma on_log_calls h em e f (cs : list (call payload)) :
  (on em e f (log_calls cs h)).2 = log_calls cs (on em e f h).2.
Proof.
  unfold on. change (lookup_set (log_calls cs h) em e) with (lookup_set h em e).
  by destruct (lookup_set h em e).
Qed.

Lemma record_call_log_calls h f d :
  record_call f d h = log_calls [(f, d)] h.
Proof. done. Qed.

Lemma registered_split h em e (pre : list listener) f (post : list listener) :
  registered h em e = pre ++ f :: post →
  ∃ s l1 l2, lookup_set h em e = Some s ∧
    sets h !!! s = l1 ++ Some f :: l2 ∧ live l1 = pre ∧ live l2 = post.
Proof.
  unfold registered. destruct (lookup_set h em e) as [s|]; [|by destruct pre].
  intros (l1 & l2 & H1 & H2 & H3)%live_split. by exists s, l1, l2.
Qed.

Lemma sets_off_at h em e f s :
  wf h → lookup_set h em e = Some s →
  sets (off em e f h) !!! s = set_delete f (sets h !!! s).
Proof.
  intros Hwf Hs. rewrite sets_off, Hs. apply alter_total_eq. by eapply wf_alloc.
Qed.

Lemma sets_on_at h em e f s :
  wf h → lookup_set h em e = Some s →
  sets (on em e f h).2 !!! s = set_add f (sets h !!! s).
Proof.
  intros Hwf Hs. rewrite sets_on, Hs. apply alter_total_eq. by eapply wf_alloc.
Qed.

(** X10. The publish loop works on the live collection, not on a copy: when
    a listener unregisters [g] during a publish, the listeners after it are
    invoked except [g]; the listeners before it, and the listener itself
    (also when [g] is that listener), have been invoked all the same. *)
Theorem removal_during_publish h em e d (pre : list listener) f
    (post : list listener) g n :
  wf h →
  registered h em e = pre ++ f :: post →
  Forall (λ x, plain body x d) pre →
  Forall (λ x, plain body x d) post →
  removes body em e g f d →
  emit_cost h em e + 1 ≤ n →
  emit body n em e d h =
  Returned (log_calls ((λ x, (x, d)) <$> pre ++ f :: filter (λ x, x ≠ g) post)
                      (off em e g h)).
Proof.
  intros Hwf Hreg Hpre Hpost Hrem Hn.
  destruct (registered_split _ _ _ _ _ _ Hreg) as (s & l1 & l2 & Hs & HD & <- & <-).
  pose proof (length_filter (λ x, x ≠ g) (live l2)) as Hlen.
  assert (emit_cost h em e =
          3 + length l1 + length l2 + length (live l1) + length (live l2)) as Hc.
  { unfold emit_cost, each_cost. rewrite Hs, HD.
    rewrite length_app, live_app, length_app. simpl. lia. }
  unfold emit, emit_frames. rewrite Hs.
  set (c3 := each_cost (set_delete g l2)).
  assert (c3 = 1 + length l2 + length (filter (λ x, x ≠ g) (live l2))) as Hc3.
  { unfold c3, each_cost, set_delete. by rewrite length_fmap, <- live_set_delete. }
  replace n with
    (length l1 + length (live l1) +
     S (S (S (c3 + (n - (length l1 + length (live l1) + 3 + c3)))))) by lia.
  rewrite (run_each_prefix s d l1 0 h [] _ (Some f :: l2))
    by (by rewrite ?drop_0).
  set (h1 := log_calls ((λ x, (x, d)) <$> live l1) h).
  assert ((sets h1 !!! s) !! (0 + length l1) = Some (Some f)) as Hat.
  { subst h1. simpl. rewrite HD. by rewrite list_lookup_middle. }
  cbn [run step]. rewrite Hat, (Hrem (log h1)). cbn [run step].
  set (h2 := off em e g (record_call f d h1)).
  assert (h2 = log_calls ((λ x, (x, d)) <$> live l1 ++ [f]) (off em e g h)) as Hh2.
  { subst h2 h1. rewrite record_call_log_calls, log_calls_app, off_log_calls.
    by rewrite fmap_app. }
  rewrite (run_each_plain s d (set_delete g l2) (S (0 + length l1)) h2 [] _).
  - rewrite run_nil, Hh2, log_calls_app. f_equal. f_equal.
    rewrite live_set_delete, <- fmap_app. f_equal.
    by rewrite <- app_assoc.
  - rewrite Hh2. change (sets (log_calls ?cs ?x)) with (sets x).
    rewrite (sets_off_at _ _ _ _ _ Hwf Hs), HD.
    unfold set_delete. rewrite <- fmap_drop. f_equal.
    rewrite (cons_middle (Some f) l1 l2), app_assoc.
    apply drop_app_length'. rewrite length_app. simpl. lia.
  - rewrite live_set_delete. apply Forall_forall.
    intros x [_ Hx]%list_elem_of_filter. by eapply Forall_forall in Hpost.
Qed.

Lemma set_add_fresh g (l : SetData) : g ∉ live l → set_add g l = l ++ [Some g].
Proof.
  intros H. unfold set_add. rewrite decide_False; [done|]. by rewrite <- elem_of_live.
Qed.

(** X11. A listener registered during a publish, under the name being
    published, is invoked in that same publish, after the listeners that
    were registered when it began. *)
Theorem addition_during_publish h em e d (pre : list listener) f
    (post : list listener) g n :
  wf h →
  registered h em e = pre ++ f :: post →
  g ∉ registered h em e →
  Forall (λ x, plain body x d) pre →
  Forall (λ x, plain body x d) post →
  plain body g d →
  adds body em e g f d →
  emit_cost h em e + 3 ≤ n →
  emit body n em e d h =
  Returned (log_calls ((λ x, (x, d)) <$> pre ++ f :: post ++ [g])
                      (on em e g h).2).
Proof.
  intros Hwf Hreg Hg Hpre Hpost Hgp Hadd Hn.
  destruct (registered_split _ _ _ _ _ _ Hreg) as (s & l1 & l2 & Hs & HD & <- & <-).
  assert (g ∉ live (sets h !!! s)) as Hg'.
  { by rewrite (registered_lookup _ _ _ _ Hs) in Hg. }
  assert (emit_cost h em e =
          3 + length l1 + length l2 + length (live l1) + length (live l2)) as Hc.
  { unfold emit_cost, each_cost. rewrite Hs, HD.
    rewrite length_app, live_app, length_app. simpl. lia. }
  unfold emit, emit_frames. rewrite Hs.
  set (c3 := each_cost (l2 ++ [Some g])).
  assert (c3 = 3 + length l2 + length (live l2)) as Hc3.
  { unfold c3, each_cost. rewrite length_app, live_app, length_app. simpl. lia. }
  replace n with
    (length l1 + length (live l1) +
     S (S (S (c3 + (n - (length l1 + length (live l1) + 3 + c3)))))) by lia.
  rewrite (run_each_prefix s d l1 0 h [] _ (Some f :: l2))
    by (by rewrite ?drop_0).
  set (h1 := log_calls ((λ x, (x, d)) <$> live l1) h).
  assert ((sets h1 !!! s) !! (0 + length l1) = Some (Some f)) as Hat.
  { subst h1. simpl. rewrite HD. by rewrite list_lookup_middle. }
  cbn [run step]. rewrite Hat, (Hadd (log h1)). cbn [run step].
  set (h2 := (on em e g (record_call f d h1)).2).
  assert (h2 = log_calls ((λ x, (x, d)) <$> live l1 ++ [f]) (on em e g h).2) as Hh2.
  { subst h2 h1. rewrite record_call_log_calls, log_calls_app, on_log_calls.
    by rewrite fmap_app. }
  rewrite (run_each_plain s d (l2 ++ [Some g]) (S (0 + length l1)) h2 [] _).
  - rewrite run_nil, Hh2, log_calls_app. f_equal. f_equal.
    rewrite live_app, <- fmap_app. f_equal. simpl.
    by rewrite <- app_assoc.
  - rewrite Hh2. change (sets (log_calls ?cs ?x)) with (sets x).
    rewrite (sets_on_at _ _ _ _ _ Hwf Hs), set_add_fresh by done. rewrite HD.
    rewrite (cons_middle (Some f) l1 l2), <- !app_assoc.
    rewrite (app_assoc l1 [Some f]).
    apply drop_app_length'. rewrite length_app. simpl. lia.
  - rewrite live_app. apply Forall_app. split; [done|]. by apply Forall_singleton.
Qed.

(** X13. A publish made by a listener is delivered at once, inside the
    outer publish: its listeners run before the remaining listeners of the
    outer publish. *)
Theorem nested_publish_is_depth_first h em e d (pre : list listener) f
    (post : list listener) em' e' d' n :
  registered h em e = pre ++ f :: post →
  Forall (λ x, plain body x d) pre →
  Forall (λ x, plain body x d) post →
  publishes body em' e' d' f d →
  Forall (λ x, plain body x d') (registered h em' e') →
  emit_cost h em e + emit_cost h em' e' + 1 ≤ n →
  emit body n em e d h =
  Returned (log_calls (((λ x, (x, d)) <$> pre) ++ [(f, d)] ++
                       ((λ x, (x, d')) <$> registered h em' e') ++
                       ((λ x, (x, d)) <$> post)) h).
Proof.
  intros Hreg Hpre Hpost Hpub Hin Hn.
  destruct (registered_split _ _ _ _ _ _ Hreg) as (s & l1 & l2 & Hs & HD & <- & <-).
  assert (emit_cost h em e =
          3 + length l1 + length l2 + length (live l1) + length (live l2)) as Hc.
  { unfold emit_cost, each_cost. rewrite Hs, HD.
    rewrite length_app, live_app, length_app. simpl. lia. }
  unfold emit, emit_frames at 1. rewrite Hs.
  set (c2 := emit_cost h em' e') in *.
  set (c3 := each_cost l2).
  assert (c3 = 1 + length l2 + length (live l2)) as Hc3 by done.
  replace n with
    (length l1 + length (live l1) +
     S (S (c2 + S (c3 + (n - (length l1 + length (live l1) + 3 + c2 + c3))))))
    by lia.
  rewrite (run_each_prefix s d l1 0 h [] _ (Some f :: l2))
    by (by rewrite ?drop_0).
  set (h1 := log_calls ((λ x, (x, d)) <$> live l1) h).
  assert ((sets h1 !!! s) !! (0 + length l1) = Some (Some f)) as Hat.
  { subst h1. simpl. rewrite HD. by rewrite list_lookup_middle. }
  cbn [run step]. rewrite Hat, (Hpub (log h1)). cbn [run step].
  set (h2 := record_call f d h1).
  change c2 with (emit_cost h2 em' e').
  rewrite run_emit_frames by done.
  change (registered h2 em' e') with (registered h em' e').
  cbn [run step].
  set (h3 := log_calls ((λ x, (x, d')) <$> registered h em' e') h2).
  rewrite (run_each_plain s d l2 (S (0 + length l1)) h3 [] _).
  - rewrite run_nil. subst h3 h2 h1.
    rewrite record_call_log_calls, !log_calls_app. by rewrite <- ?app_assoc.
  - change (sets h3) with (sets h). rewrite HD.
    rewrite (cons_middle (Some f) l1 l2), app_assoc.
    apply drop_app_length'. rewrite length_app. simpl. lia.
  - done.
Qed.

Lemma run_emit_frames_throw h em e d (pre : list listener) g
    (post : list listener) k n :
  registered h em e = pre ++ g :: post →
  Forall (λ x, plain body x d) pre →
  throws body g d →
  emit_cost h em e ≤ n →
  run body n (emit_frames h em e d ++ k) h =
  Threw (log_calls (((λ x, (x, d)) <$> pre) ++ [(g, d)]) h).
Proof.
  intros Hreg Hplain Hthrow Hn.
  destruct (registered_split _ _ _ _ _ _ Hreg) as (s & l1 & l2 & Hs & HD & <- & _).
  unfold emit_frames, emit_cost in *. rewrite Hs in *.
  assert (each_cost l1 + 1 ≤ n) as Hle.
  { rewrite HD in Hn. unfold each_cost in *.
    rewrite length_app, live_app, length_app in Hn. simpl in Hn. lia. }
  replace n with (each_cost l1 + 1 + (n - (each_cost l1 + 1))) by lia.
  apply (run_each_throw s d l1 g l2); [by rewrite drop_0|done|done].
Qed.

(** X14. A fault in a publish made by a listener ends the outer publish
    too: the exception leaves both loops, and no further listener of either
    is invoked. *)
Theorem nested_fault_propagates h em e d (pre : list listener) f
    (post : list listener) em' e' d' (pre' : list listener) g
    (post' : list listener) n :
  registered h em e = pre ++ f :: post →
  Forall (λ x, plain body x d) pre →
  publishes body em' e' d' f d →
  registered h em' e' = pre' ++ g :: post' →
  Forall (λ x, plain body x d') pre' →
  throws body g d' →
  emit_cost h em e + emit_cost h em' e' ≤ n →
  emit body n em e d h =
  Threw (log_calls (((λ x, (x, d)) <$> pre) ++ [(f, d)] ++
                    ((λ x, (x, d')) <$> pre') ++ [(g, d')]) h).
Proof.
  intros Hreg Hpre Hpub Hreg' Hpre' Hthrow Hn.
  destruct (registered_split _ _ _ _ _ _ Hreg) as (s & l1 & l2 & Hs & HD & <- & <-).
  assert (emit_cost h em e =
          3 + length l1 + length l2 + length (live l1) + length (live l2)) as Hc.
  { unfold emit_cost, each_cost. rewrite Hs, HD.
    rewrite length_app, live_app, length_app. simpl. lia. }
  unfold emit, emit_frames at 1. rewrite Hs.
  replace n with
    (length l1 + length (live l1) +
     S (S (n - (length l1 + length (live l1) + 2)))) by lia.
  rewrite (run_each_prefix s d l1 0 h [] _ (Some f :: l2))
    by (by rewrite ?drop_0).
  set (h1 := log_calls ((λ x, (x, d)) <$> live l1) h).
  assert ((sets h1 !!! s) !! (0 + length l1) = Some (Some f)) as Hat.
  { subst h1. simpl. rewrite HD. by rewrite list_lookup_middle. }
  cbn [run step]. rewrite Hat, (Hpub (log h1)). cbn [run step].
  set (h2 := record_call f d h1).
  rewrite (run_emit_frames_throw h2 em' e' d' pre' g post'); try done.
  - subst h2 h1. rewrite record_call_log_calls, !log_calls_app.
    by rewrite <- ?app_assoc.
  - change (emit_cost h2 em' e') with (emit_cost h em' e'). lia.
Qed.

(** ** Beyond the claims: a publish that never ends *)

Lemma spinning_cons em e f d k h : spinning body em e f d k h → k ≠ [].
Proof. by destruct 1. Qed.

Lemma spinning_step em e f d k h :
  resubscribes body em e f d →
  spinning body em e f d k h →
  ∃ k' h', step body k h = inl (k', h') ∧ spinning body em e f d k' h'.
Proof.
  intros Hres Hspin. destruct Hspin as
    [s i k h (Hs & Hlt & Hin & Hpl)|s i k h Hah|s i k h Hs Hlt Hi Hpl
    |s i k h Hs Hlt Hi Hout Hpl].
  - destruct (drop i (sets h !!! s)) as [|x t] eqn:Hdrop;
      [by apply elem_of_nil in Hin|].
    apply drop_cons_inv in Hdrop as [Hx Hdrop]. cbn [step]. rewrite Hx.
    destruct x as [g|].
    + change (live (Some g :: t)) with (g :: live t) in Hin.
      assert (S i ≤ length (sets h !!! s)) as Hi
        by (apply lookup_lt_Some in Hx; lia).
      destruct (decide (g = f)) as [->|Hne].
      * rewrite (Hres (log h)). eexists _, _. split; [done|].
        by apply spin_off.
      * assert (plain body g d) as Hg.
        { apply Hpl; [|done]. apply elem_of_live.
          by eapply list_elem_of_lookup_2. }
        rewrite (Hg (log h)). eexists _, _. split; [done|].
        apply spin_back. split_and!; try done. cbn [record_call sets].
        rewrite Hdrop. apply elem_of_cons in Hin as [->|Hin]; done.
    + eexists _, _. split; [done|]. apply spin_each. split_and!; try done.
      by rewrite Hdrop.
  - eexists _, _. split; [done|]. by apply spin_each.
  - cbn [step]. eexists _, _. split; [done|].
    assert (sets (off em e f h) !!! s = set_delete f (sets h !!! s)) as Hat
      by (rewrite sets_off, Hs; by apply alter_total_eq).
    apply spin_on.
    + by rewrite lookup_set_off.
    + by rewrite sets_off, Hs, length_alter.
    + rewrite Hat. unfold set_delete. by rewrite length_fmap.
    + rewrite Hat, live_set_delete. apply not_elem_of_filter_ne.
    + intros g. rewrite Hat, live_set_delete.
      intros [_ Hg]%list_elem_of_filter. by apply Hpl.
  - cbn [step]. eexists _, _. split; [done|].
    assert (sets (on em e f h).2 !!! s = sets h !!! s ++ [Some f]) as Hat.
    { rewrite sets_on, Hs, alter_total_eq by done. by apply set_add_fresh. }
    apply spin_back. split_and!.
    + by apply lookup_set_on_old.
    + by rewrite sets_on, Hs, length_alter.
    + rewrite Hat, drop_app_le, live_app by done.
      apply elem_of_app. right. by left.
    + intros g. rewrite Hat, live_app.
      intros [Hg|Hg%list_elem_of_singleton]%elem_of_app Hne; [by apply Hpl|done].
Qed.

Lemma spinning_forever em e f d :
  resubscribes body em e f d →
  ∀ n k h, spinning body em e f d k h → run body n k h = OutOfFuel.
Proof.
  intros Hres n. induction n as [|n IH]; intros k h Hspin.
  - destruct k; [by apply spinning_cons in Hspin|done].
  - destruct k as [|fr k]; [by apply spinning_cons in Hspin|].
    destruct (spinning_step _ _ _ _ _ _ Hres Hspin) as (k' & h' & Hstep & Hspin').
    cbn [run]. rewrite Hstep. by apply IH.
Qed.

(** X12. A listener that unsubscribes and subscribes itself again while its
    name is being published keeps the publish going for ever: deleting and
    adding puts it at the end of the [Set], ahead of the loop again, so
    [emit] never returns however long it runs. *)
Theorem resubscribing_listener_never_returns h em e f d n :
  wf h →
  f ∈ registered h em e →
  resubscribes body em e f d →
  (∀ g, g ∈ registered h em e → g ≠ f → plain body g d) →
  emit body n em e d h = OutOfFuel.
Proof.
  intros Hwf Hin Hres Hpl. unfold emit, emit_frames.
  unfold registered in Hin, Hpl.
  destruct (lookup_set h em e) as [s|] eqn:Hs; [|by apply elem_of_nil in Hin].
  apply (spinning_forever em e f d Hres). apply spin_each. split_and!.
  - done.
  - by eapply wf_alloc.
  - by rewrite drop_0.
  - done.
Qed.

(** ** Beyond the claims: whole executions that leave an emitter alone *)

Lemma run_config_invariant (I : list (frame payload) → store payload → Prop)
    (P : store payload → Prop) :
  (∀ h, I [] h → P h) →
  (∀ k h, I k h →
     match step body k h with
     | inl (k', h') => I k' h'
     | inr h' => P h'
     end) →
  ∀ n k h h', I k h → final (run body n k h) = Some h' → P h'.
Proof.
  intros Hend Hstep n. induction n as [|n IH]; intros k h h' HI Hrun.
  - destruct k; simpl in Hrun; [|done]. injection Hrun as <-. by apply Hend.
  - destruct k as [|fr k].
    + simpl in Hrun. injection Hrun as <-. by apply Hend.
    + specialize (Hstep (fr :: k) h HI). cbn [run] in Hrun.
      destruct (step body (fr :: k) h) as [[k' h1]|h1].
      * exact (IH _ _ _ Hstep Hrun).
      * simpl in Hrun. by injection Hrun as <-.
Qed.

Lemma lookup_set_on_ne h em e f em' e' :
  em' ≠ em → lookup_set (on em e f h).2 em' e' = lookup_set h em' e'.
Proof.
  intros Hne. destruct (lookup_set h em' e') as [s|] eqn:Hs.
  - by apply lookup_set_on_old.
  - destruct (lookup_set (on em e f h).2 em' e') as [s|] eqn:Hs'; [|done].
    apply lookup_set_on_inv in Hs' as [Hs'|(-> & _)]; congruence.
Qed.

Lemma sets_on_other h em e f em' e' s :
  wf h → em' ≠ em ∨ e' ≠ e → lookup_set h em' e' = Some s →
  sets (on em e f h).2 !!! s = sets h !!! s.
Proof.
  intros Hwf Hne Hs'. rewrite sets_on.
  destruct (lookup_set h em e) as [s0|] eqn:Hs.
  - apply alter_total_ne. intros ->.
    destruct (wf_inj _ _ Hwf _ _ _ _ _ Hs Hs') as [-> ->]. by destruct Hne.
  - apply lookup_total_app_l. by eapply wf_alloc.
Qed.

Lemma sets_off_other h em e f em' e' s :
  wf h → em' ≠ em ∨ e' ≠ e → lookup_set h em' e' = Some s →
  sets (off em e f h) !!! s = sets h !!! s.
Proof.
  intros Hwf Hne Hs'. rewrite sets_off.
  destruct (lookup_set h em e) as [s0|] eqn:Hs; [|done].
  apply alter_total_ne. intros ->.
  destruct (wf_inj _ _ Hwf _ _ _ _ _ Hs Hs') as [-> ->]. by destruct Hne.
Qed.

Lemma untouched_step h0 em2 k h :
  (∀ f d tr, Forall (foreign_to h0 em2) (body f d tr)) →
  Forall (frame_foreign h0 em2) k ∧ untouched h0 em2 h →
  match step body k h with
  | inl (k', h') => Forall (frame_foreign h0 em2) k' ∧ untouched h0 em2 h'
  | inr h' => untouched h0 em2 h'
  end.
Proof.
  intros Hbody [Hk (Hwf & HL & HS)].
  destruct k as [|[[|a acts]|s i d] k]; cbn [step].
  - done.
  - apply Forall_cons in Hk as [_ Hk]. done.
  - apply Forall_cons in Hk as [[Ha Hacts]%Forall_cons Hk].
    assert (Forall (frame_foreign h0 em2) (FActs acts :: k)) as Hk'
      by (by apply Forall_cons).
    destruct a as [|em e f|em e f|u|em e d|]; simpl in Ha.
    + split; [done|]. split_and!.
      * by apply wf_create.
      * intros e. by rewrite lookup_set_create.
      * done.
    + split; [done|]. split_and!.
      * by apply wf_on.
      * intros e'. by rewrite lookup_set_on_ne.
      * intros e' s Hs. rewrite <- (HS e' s Hs).
        apply (sets_on_other h em e f em2 e'); [done|by left|].
        by rewrite HL.
    + split; [done|]. split_and!.
      * by apply wf_off.
      * intros e'. by rewrite lookup_set_off.
      * intros e' s Hs. rewrite <- (HS e' s Hs).
        apply (sets_off_other h em e f em2 e'); [done|by left|].
        by rewrite HL.
    + split; [done|]. split_and!.
      * by apply wf_unsub.
      * done.
      * intros e' s Hs. rewrite <- (HS e' s Hs).
        apply alter_total_ne. intros Heq. apply (Ha e'). by rewrite Heq.
    + split; [|done]. unfold emit_frames.
      destruct (lookup_set h em e) as [s|] eqn:Hs; [|done].
      apply Forall_cons. split; [|done]. intros e2 Hs2.
      rewrite <- HL in Hs2.
      by destruct (wf_inj _ _ Hwf _ _ _ _ _ Hs Hs2) as [-> _].
    + done.
  - apply Forall_cons in Hk as [Hfr Hk].
    destruct ((sets h !!! s) !! i) as [[f|]|].
    + split.
      * apply Forall_cons. split; [apply Hbody|]. by apply Forall_cons.
      * split_and!; [by apply wf_record_call|done|done].
    + split; [by apply Forall_cons|done].
    + done.
Qed.

(** X15. An execution in which no code, caller's or listener's, calls a
    method of emitter [em2] or holds one of its closures leaves every
    collection of [em2] as it was, whatever else it does (creating
    emitters, subscribing, publishing from listeners, faulting). *)
Theorem other_emitter_untouched h0 em2 (prog : list (action payload)) n h' e2 :
  wf h0 →
  (∀ f d tr, Forall (foreign_to h0 em2) (body f d tr)) →
  Forall (foreign_to h0 em2) prog →
  final (run body n [FActs prog] h0) = Some h' →
  registered h' em2 e2 = registered h0 em2 e2.
Proof.
  intros Hwf Hbody Hprog Hrun.
  assert (untouched h0 em2 h') as (_ & HL & HS).
  { apply (run_config_invariant
             (λ k h, Forall (frame_foreign h0 em2) k ∧ untouched h0 em2 h)
             (untouched h0 em2)) with (n := n) (k := [FActs prog]) (h := h0).
    - by intros h [_ H].
    - intros k h. by apply untouched_step.
    - split; [by apply Forall_singleton|]. by split_and!.
    - done. }
  unfold registered. rewrite HL.
  destruct (lookup_set h0 em2 e2) as [s|] eqn:Hs; [|done].
  by rewrite (HS e2 s Hs).
Qed.

End Theory.

(** ** The claims at concrete inputs *)

Lemma wf_fresh : wf fresh.
Proof. apply wf_create, wf_init. Qed.

Lemma wf_one_listener : wf one_listener.
Proof. apply wf_on, wf_fresh. Qed.

Lemma wf_three_listeners : wf three_listeners.
Proof. do 2 apply wf_on. apply wf_one_listener. Qed.

Lemma wf_two_emitters : wf two_emitters.
Proof. apply wf_on, wf_create, wf_one_listener. Qed.

(** What [Set.prototype.forEach] does when a callback changes the set: an
    entry deleted before it is reached is skipped, an entry added during the
    walk is visited. *)

Example publish_skips_removed :
  final_log (emit first_removes_third 9 0 "message" "hello" three_listeners) =
  [(1, "hello"); (2, "hello")].
Proof. reflexivity. Qed.

Example publish_reaches_added :
  final_log (emit first_adds_ninth 11 0 "message" "hello" three_listeners) =
  [(1, "hello"); (2, "hello"); (3, "hello"); (9, "hello")].
Proof. reflexivity. Qed.

Lemma quiet_plain (l : list listener) (d : string) :
  Forall (λ f, plain quiet f d) l.
Proof. apply Forall_forall. by intros f _ tr. Qed.

Lemma C3_witness :
  emit quiet 7 0 "message" "hello" three_listeners =
    Returned (log_calls [(1, "hello"); (2, "hello"); (3, "hello")] three_listeners).
Proof.
  refine (proj1 (C3_publish_in_subscription_order quiet three_listeners 0
                   "message" "hello" 7 _ _)).
  - apply quiet_plain.
  - vm_compute. lia.
Defined.

Lemma C4_witness :
  let h1 := (on 0 "message" 2 one_listener).2 in
  log h1 = log one_listener ∧
  emit quiet 5 0 "message" "hello" h1 =
    Returned (log_calls [(1, "hello"); (2, "hello")] h1) ∧
  calls_of 2 [(1, "hello"); (2, "hello")] = [(2, "hello")].
Proof.
  refine (C4_register_then_publish quiet one_listener 0 "message" 2 "hello" 5
            wf_one_listener _ _ _ _ _).
  - vm_compute. lia.
  - vm_compute. intros [H|H]%elem_of_cons; [lia|by apply elem_of_nil in H].
  - apply quiet_plain.
  - by intros tr.
  - vm_compute. lia.
Defined.

Lemma C6_witness :
  emit second_faults 7 0 "message" "hello" three_listeners =
    Threw (log_calls [(1, "hello"); (2, "hello")] three_listeners) ∧
  (∀ g, g ∈ [1] → calls_of g [(1, "hello"); (2, "hello")] = [(g, "hello")]) ∧
  (∀ g, g ∈ [3] → calls_of g [(1, "hello"); (2, "hello")] = []).
Proof.
  refine (C6_fault_stops_delivery second_faults three_listeners 0 "message"
            "hello" [1] 2 [3] 7 wf_three_listeners _ _ _ _).
  - reflexivity.
  - apply Forall_singleton. by intros tr.
  - intros tr. by exists [].
  - vm_compute. lia.
Defined.

Lemma C7_witness :
  emit quiet 0 0 "click" "hello" one_listener = Returned one_listener ∧
  off 0 "click" 1 one_listener = one_listener ∧
  off 0 "message" 2 one_listener = one_listener.
Proof.
  split_and!.
  - refine (proj1 (C7_noop_safety quiet one_listener 0 "click" 1 "hello" 0) _ _).
    + reflexivity.
    + vm_compute. lia.
  - refine (proj1 (proj2 (C7_noop_safety quiet one_listener 0 "click" 1 "hello" 0)) _).
    reflexivity.
  - refine (proj2 (proj2 (C7_noop_safety quiet one_listener 0 "message" 2 "hello" 0)) _).
    vm_compute. intros [H|H]%elem_of_cons; [lia|by apply elem_of_nil in H].
Defined.

Lemma C8_witness :
  let h1 := (on 0 "click" 2 one_listener).2 in
  2 ∈ registered h1 0 "click" ∧
  emit quiet 3 0 "message" "hello" h1 = Returned (log_calls [(1, "hello")] h1) ∧
  calls_of 2 [(1, "hello")] = [].
Proof.
  refine (C8_name_isolation quiet one_listener 0 "click" "message" 2 "hello" 3
            wf_one_listener _ _ _ _ _).
  - vm_compute. lia.
  - discriminate.
  - vm_compute. intros [H|H]%elem_of_cons; [lia|by apply elem_of_nil in H].
  - apply quiet_plain.
  - vm_compute. lia.
Defined.

Lemma C9_witness :
  registered (on 0 "message" 3 two_emitters).2 1 "message" =
    registered two_emitters 1 "message" ∧
  registered (off 0 "message" 3 two_emitters) 1 "message" =
    registered two_emitters 1 "message".
Proof.
  pose proof (C9_instance_isolation quiet two_emitters 0 1 "message" "message"
                3 "only-1" 3 wf_two_emitters) as H.
  destruct H as (H1 & H2 & _); [lia|]. exact (conj H1 H2).
Defined.

Lemma C10_witness :
  call_unsub (on 0 "message" 7 fresh).1 busy = off 0 "message" 7 busy ∧
  registered busy 0 "message" = [7; 8] ∧
  registered (call_unsub (on 0 "message" 7 fresh).1 busy) 0 "message" = [8] ∧
  registered (off 0 "message" 7 busy) 0 "message" = [8].
Proof.
  assert (is_emitter fresh 0) as Hem by (vm_compute; lia).
  assert (during quiet (on 0 "message" 7 fresh).2 busy) as Hev.
  { apply (run_during quiet 5 [FActs busy_program]). reflexivity. }
  destruct (C10_unsubscribe_is_unregister quiet fresh 0 "message" 7 busy
              Hem Hev) as [Heq Hrem].
  destruct (Hrem wf_fresh) as (H1 & H2 & _).
  split_and!; [exact Heq|reflexivity|exact H1|exact H2].
Defined.

Lemma C1_witness :
  let h1 := (on 0 "message" 2 three_listeners).2 in
  h1 = three_listeners ∧
  filter (λ g, g = 2) (registered h1 0 "message") = [2] ∧
  emit quiet 7 0 "message" "hello" h1 =
    Returned (log_calls [(1, "hello"); (2, "hello"); (3, "hello")] h1) ∧
  calls_of 2 [(1, "hello"); (2, "hello"); (3, "hello")] = [(2, "hello")].
Proof.
  refine (C1_second_registration_is_absorbed quiet three_listeners 0 "message"
            2 "hello" 7 wf_three_listeners _ _ _).
  - vm_compute. apply elem_of_cons. right. by left.
  - apply quiet_plain.
  - vm_compute. lia.
Defined.

Lemma C2_witness :
  let u := (on 0 "message" 7 fresh).1 in
  let h1 := (on 0 "message" 7 fresh).2 in
  call_unsub u (call_unsub u h1) = call_unsub u h1.
Proof.
  pose proof (C2_unsubscribe_once quiet fresh 0 "message" 7 wf_fresh) as H.
  destruct H as (_ & _ & H & _); [vm_compute; lia|]. exact H.
Defined.

Lemma C5_witness :
  let h1 := (on 0 "message" 1 three_listeners).2 in
  let h2 := call_unsub (on 0 "message" 1 three_listeners).1 h1 in
  let h3 := (on 0 "message" 1 h2).2 in
  registered h3 0 "message" = [2; 3; 1] ∧
  final_log (run quiet 34 [FActs (emits 0 "message" ["a"; "b"; "c"])] h3) =
    [(2, "a"); (3, "a"); (1, "a"); (2, "b"); (3, "b"); (1, "b");
     (2, "c"); (3, "c"); (1, "c")] ∧
  calls_of 1 [(2, "a"); (3, "a"); (1, "a"); (2, "b"); (3, "b"); (1, "b");
              (2, "c"); (3, "c"); (1, "c")] = [(1, "a"); (1, "b"); (1, "c")].
Proof.
  pose proof (C5_resubscribe_after_unsubscribe quiet three_listeners 0
                "message" 1 ["a"; "b"; "c"] 34 wf_three_listeners) as H.
  destruct H as (H1 & H2 & H3).
  - vm_compute. lia.
  - intros d _. apply quiet_plain.
  - vm_compute. lia.
  - split_and!; [exact H1| |exact H3].
    unfold final_log. rewrite H2. reflexivity.
Defined.

(** C1, as stated, fails: listener 7 is registered twice under ["message"],
    yet it has one entry and one publish invokes it once, not twice. *)
Lemma C1_counterexample :
  let h1 := (on 0 "message" 7 fresh).2 in
  let h2 := (on 0 "message" 7 h1).2 in
  registered h2 0 "message" = [7] ∧
  final_log (emit quiet 3 0 "message" "hello" h2) = [(7, "hello")] ∧
  length (calls_of 7 (final_log (emit quiet 3 0 "message" "hello" h2))) ≠ 2.
Proof. split_and!; [reflexivity|reflexivity|vm_compute; lia]. Qed.

(** C2, as stated, fails: between the first and the second invocation of
    the callable, listener 7 is registered again under ["message"]; the
    second invocation removes that new registration. *)
Lemma C2_counterexample :
  let u := (on 0 "message" 7 fresh).1 in
  let h1 := (on 0 "message" 7 fresh).2 in
  let h2 := call_unsub u h1 in
  let h3 := (on 0 "message" 7 h2).2 in
  registered h2 0 "message" = [] ∧
  registered h3 0 "message" = [7] ∧
  registered (call_unsub u h3) 0 "message" = [] ∧
  call_unsub u h3 ≠ h3.
Proof.
  split_and!; [reflexivity|reflexivity|reflexivity|].
  intros H. apply (f_equal (λ h, registered h 0 "message")) in H.
  vm_compute in H. discriminate.
Qed.

(** ** The further properties at concrete inputs *)

Lemma wf_two_names : wf two_names.
Proof. do 2 apply wf_on. apply wf_three_listeners. Qed.

Lemma X1_witness :
  registered (on 0 "message" 2 one_listener).2 0 "message" = [1; 2] ∧
  registered (on 0 "message" 1 one_listener).2 0 "message" = [1].
Proof.
  split.
  - refine (proj1 (on_postcondition one_listener 0 "message" 2
                     wf_one_listener _)).
    vm_compute. lia.
  - refine (proj1 (on_postcondition one_listener 0 "message" 1
                     wf_one_listener _)).
    vm_compute. lia.
Defined.

Lemma X2_witness :
  registered (call_unsub (on 0 "message" 4 three_listeners).1
                         (on 0 "message" 4 three_listeners).2) 0 "message" =
  [1; 2; 3].
Proof.
  refine (subscribe_unsubscribe_round_trip quiet three_listeners 0 "message" 4
            0 "message" wf_three_listeners _ _).
  - vm_compute. lia.
  - vm_compute. intros H. repeat (apply elem_of_cons in H as [H|H]; [lia|]).
    by apply elem_of_nil in H.
Defined.

Lemma X3_witness :
  let h1 := off 0 "message" 2 three_listeners in
  registered h1 0 "message" = [1; 3] ∧
  emit quiet 7 0 "message" "hello" h1 =
    Returned (log_calls [(1, "hello"); (3, "hello")] h1) ∧
  calls_of 2 [(1, "hello"); (3, "hello")] = [].
Proof.
  pose proof (off_then_publish quiet three_listeners 0 "message" 2 "hello" 7
                wf_three_listeners) as H.
  destruct H as (H1 & _ & H3 & H4).
  - apply quiet_plain.
  - vm_compute. lia.
  - exact (conj H1 (conj H3 H4)).
Defined.

Lemma X6_witness :
  final_log (run quiet 25 [FActs (emits 0 "message" ["a"; "b"; "c"])]
               three_listeners) =
    [(1, "a"); (2, "a"); (3, "a"); (1, "b"); (2, "b"); (3, "b");
     (1, "c"); (2, "c"); (3, "c")] ∧
  calls_of 2 [(1, "a"); (2, "a"); (3, "a"); (1, "b"); (2, "b"); (3, "b");
              (1, "c"); (2, "c"); (3, "c")] = [(2, "a"); (2, "b"); (2, "c")].
Proof.
  pose proof (repeat_delivery quiet three_listeners 0 "message" 2
                ["a"; "b"; "c"] 25 wf_three_listeners) as H.
  destruct H as (H1 & H2).
  - vm_compute. apply elem_of_cons. right. by left.
  - intros d _. apply quiet_plain.
  - vm_compute. lia.
  - split; [|exact H2]. unfold final_log. rewrite H1. reflexivity.
Defined.

Lemma X7_witness :
  let h2 := (on 0 "click" 7 (on 0 "message" 7 fresh).2).2 in
  7 ∈ registered h2 0 "message" ∧ 7 ∈ registered h2 0 "click" ∧
  (7 ∉ registered (off 0 "message" 7 h2) 0 "message") ∧
  7 ∈ registered (off 0 "message" 7 h2) 0 "click".
Proof.
  refine (listener_under_two_names fresh 0 "message" "click" 7 wf_fresh _ _).
  - vm_compute. lia.
  - discriminate.
Defined.

Lemma evolves_built : evolves quiet init built.
Proof.
  apply (evolves_run _ quiet init init built 10
           [ACreate; AOn 0 "message" 1; AOn 0 "message" 2;
            AOff 0 "message" 1; AEmit 0 "message" "hello"]).
  - apply evolves_refl.
  - reflexivity.
Qed.

Lemma X8_witness : wf built ∧ ∀ em e, NoDup (registered built em e).
Proof. exact (reachable_stores_well_formed quiet built evolves_built). Defined.

Lemma evolves_busy : evolves quiet (on 0 "message" 7 fresh).2 busy.
Proof.
  apply (evolves_run _ quiet _ (on 0 "message" 7 fresh).2 _ 5 busy_program).
  - apply evolves_refl.
  - reflexivity.
Qed.

Lemma X9_witness : lookup_set busy 0 "message" = Some 0 ∧ is_emitter busy 0.
Proof.
  refine (map_entries_persist quiet (on 0 "message" 7 fresh).2 busy 0
            "message" 0 evolves_busy _).
  reflexivity.
Defined.

Lemma X10_witness :
  emit first_removes_third 8 0 "message" "hello" three_listeners =
  Returned (log_calls [(1, "hello"); (2, "hello")]
                      (off 0 "message" 3 three_listeners)).
Proof.
  refine (removal_during_publish first_removes_third three_listeners 0
            "message" "hello" [] 1 [2; 3] 3 8 wf_three_listeners _ _ _ _ _).
  - reflexivity.
  - apply Forall_nil_2.
  - repeat apply Forall_cons_2; [by intros tr|by intros tr|apply Forall_nil_2].
  - by intros tr.
  - vm_compute. lia.
Defined.

Lemma X11_witness :
  emit first_adds_ninth 10 0 "message" "hello" three_listeners =
  Returned (log_calls [(1, "hello"); (2, "hello"); (3, "hello"); (9, "hello")]
                      (on 0 "message" 9 three_listeners).2).
Proof.
  refine (addition_during_publish first_adds_ninth three_listeners 0
            "message" "hello" [] 1 [2; 3] 9 10 wf_three_listeners _ _ _ _ _ _ _).
  - reflexivity.
  - vm_compute. intros H. repeat (apply elem_of_cons in H as [H|H]; [lia|]).
    by apply elem_of_nil in H.
  - apply Forall_nil_2.
  - repeat apply Forall_cons_2; [by intros tr|by intros tr|apply Forall_nil_2].
  - by intros tr.
  - by intros tr.
  - vm_compute. lia.
Defined.

Lemma X12_witness :
  emit first_resubscribes 1000 0 "message" "hello" three_listeners = OutOfFuel.
Proof.
  refine (resubscribing_listener_never_returns first_resubscribes
            three_listeners 0 "message" 1 "hello" 1000 wf_three_listeners _ _ _).
  - vm_compute. by left.
  - by intros tr.
  - intros g _ Hne tr. unfold first_resubscribes. by rewrite decide_False.
Defined.

Lemma X13_witness :
  emit first_publishes_click 13 0 "message" "hello" two_names =
  Returned (log_calls [(1, "hello"); (5, "inner"); (6, "inner");
                       (2, "hello"); (3, "hello")] two_names).
Proof.
  refine (nested_publish_is_depth_first first_publishes_click two_names 0
            "message" "hello" [] 1 [2; 3] 0 "click" "inner" 13 _ _ _ _ _ _).
  - reflexivity.
  - apply Forall_nil_2.
  - repeat apply Forall_cons_2; [by intros tr|by intros tr|apply Forall_nil_2].
  - by intros tr.
  - change (registered two_names 0 "click") with [5; 6].
    repeat apply Forall_cons_2; [by intros tr|by intros tr|apply Forall_nil_2].
  - vm_compute. lia.
Defined.

Lemma X14_witness :
  emit click_faults 12 0 "message" "hello" two_names =
  Threw (log_calls [(1, "hello"); (5, "inner")] two_names).
Proof.
  refine (nested_fault_propagates click_faults two_names 0 "message" "hello"
            [] 1 [2; 3] 0 "click" "inner" [] 5 [6] 12 _ _ _ _ _ _ _).
  - reflexivity.
  - apply Forall_nil_2.
  - by intros tr.
  - reflexivity.
  - apply Forall_nil_2.
  - intros tr. by exists [].
  - vm_compute. lia.
Defined.

Lemma X15_witness :
  registered after_traffic 1 "message" = registered two_emitters 1 "message".
Proof.
  refine (other_emitter_untouched first_adds_ninth two_emitters 1 traffic 20
            after_traffic "message" wf_two_emitters _ _ _).
  - intros f d tr. unfold first_adds_ninth. case_decide.
    + apply Forall_singleton. simpl. lia.
    + apply Forall_nil_2.
  - unfold traffic. repeat apply Forall_cons_2; simpl; try lia; try done.
  - reflexivity.
Defined.
